(** * Cross-matching utilities of the Multimodal Universe ([mmu/utils.py])

    A shallow embedding of [get_catalog], [cross_match_datasets] (with its
    inner generator [_generate_examples]) and [build_master_catalog], and
    the properties of them that the design document states.

    Conventions of the embedding.
    - Coordinates and separations are rationals ([Q]); the angular
      separation itself is a parameter [separation] of the development
      (it is astropy's), given in arcseconds.  Coordinates are taken to be
      valid sky positions.  The rounding of float64 arithmetic on
      coordinates is not part of the embedding: what is proved about a
      computed coordinate holds of the code where the float operations
      are exact, as they are for the midpoint of two equal coordinates.
    - A Python exception is the left injection of [Result]; text written by
      [print] and records produced by [yield] are events of the writer [M].
    - numpy indexing ([a[mask]], [a[idx]]) and the pandas masked assignment
      ([df.loc[mask, col] = v]) are the list functions [getitem_mask],
      [take], [loc_set] and [loc_assign]. *)

From Stdlib Require Import List String Ascii Bool Arith ZArith QArith Lia.
From Stdlib Require Import Qabs Permutation Sorted DecimalString.
Import ListNotations.

Local Open Scope string_scope.
Local Open Scope list_scope.

(* ===================================================================== *)
(** ** Exceptions, results and printed output *)
(* ===================================================================== *)

Inductive Exception : Type :=
| ValueError
| KeyError
| IndexError
| AssertionError
| OSError
| AttributeError.

Definition Result (A : Type) : Type := (Exception + A)%type.

Definition raise {A : Type} (e : Exception) : Result A := inl e.

Definition bindR {A B : Type} (c : Result A) (k : A -> Result B) : Result B :=
  match c with
  | inl e => inl e
  | inr x => k x
  end.

Declare Scope result_scope.
Delimit Scope result_scope with result.
Notation "x <- c ;; k" := (bindR c (fun x => k))
  (at level 61, c at next level, right associativity) : result_scope.
Notation "' p <- c ;; k" := (bindR c (fun x => let p := x in k))
  (at level 61, p pattern, c at next level, right associativity) : result_scope.

(** What the code hands to [print] (the observability sink) and what the
    generator yields. *)
Inductive Event (R : Type) : Type :=
| InitialMatches (n : nat)
| LostAtBorders (n : Z)
| FinalSize (n : nat)
| GenerationErrors (counter : nat)
| Yield (merged_example : R).

Arguments InitialMatches {R} n.
Arguments LostAtBorders {R} n.
Arguments FinalSize {R} n.
Arguments GenerationErrors {R} counter.
Arguments Yield {R} merged_example.

(** Writer over [Result]: the events emitted so far, then how the
    computation ended. *)
Definition M (R A : Type) : Type := (list (Event R) * Result A)%type.

Definition retM {R A : Type} (x : A) : M R A := ([], inr x).

Definition bindM {R A B : Type} (c : M R A) (k : A -> M R B) : M R B :=
  match snd c with
  | inl e => (fst c, inl e)
  | inr x => (fst c ++ fst (k x), snd (k x))
  end.

Definition lift {R A : Type} (c : Result A) : M R A := ([], c).

Definition emit {R : Type} (ev : Event R) : M R unit := ([ev], inr tt).

(** [assert cond, msg] *)
Definition assert_ {R : Type} (cond : bool) : M R unit :=
  if cond then retM tt else lift (raise AssertionError).

Declare Scope writer_scope.
Delimit Scope writer_scope with writer.
Notation "x <~ c ;; k" := (bindM c (fun x => k))
  (at level 61, c at next level, right associativity) : writer_scope.
Notation "c ;;; k" := (bindM c (fun _ => k))
  (at level 61, right associativity) : writer_scope.

(* ===================================================================== *)
(** ** Array helpers (numpy, pandas) *)
(* ===================================================================== *)

(** [x < y] on rationals, as a boolean. *)
Definition Qlt_bool (x y : Q) : bool := negb (Qle_bool y x).

(** [a[mask]] for a boolean mask of the length of [a]. *)
Fixpoint getitem_mask {A : Type} (a : list A) (mask : list bool) : list A :=
  match a, mask with
  | x :: a', b :: mask' =>
      if b then x :: getitem_mask a' mask' else getitem_mask a' mask'
  | _, _ => []
  end.

(** [a[i]]; an index past the end raises [IndexError]. *)
Definition getitem {A : Type} (a : list A) (i : nat) : Result A :=
  match nth_error a i with
  | Some x => inr x
  | None => raise IndexError
  end.

(** [a[idx]] for an integer index array. *)
Fixpoint take {A : Type} (a : list A) (idx : list nat) : Result (list A) :=
  match idx with
  | [] => inr []
  | i :: idx' =>
      (x <- getitem a i ;;
       xs <- take a idx' ;;
       inr (x :: xs))%result
  end.

(** [df.loc[mask, col] = v] with a scalar [v]: [set] writes the column. *)
Fixpoint loc_set {A : Type} (set : A -> A) (df : list A) (mask : list bool)
  : list A :=
  match df, mask with
  | r :: df', b :: mask' =>
      (if b then set r else r) :: loc_set set df' mask'
  | _, _ => df
  end.

(** [df.loc[mask, col] = values] with an array holding one value per
    selected row, consumed in row order. *)
Fixpoint loc_assign {A V : Type} (set : V -> A -> A) (df : list A)
  (mask : list bool) (values : list V) : list A :=
  match df, mask with
  | r :: df', b :: mask' =>
      if b then
        match values with
        | v :: values' => set v r :: loc_assign set df' mask' values'
        | [] => r :: loc_assign set df' mask' []
        end
      else r :: loc_assign set df' mask' values
  | _, _ => df
  end.

(* ===================================================================== *)
(** ** Catalogues and the spatial match *)
(* ===================================================================== *)

(** One row of the table [get_catalog] returns for the default keys
    [['object_id', 'ra', 'dec', 'healpix']]. *)
Record CatRow : Type := mkCatRow {
  object_id : string;
  ra : Q;
  dec : Q;
  healpix : Z
}.

Definition Catalog : Type := list CatRow.

(** A sky position, [(ra, dec)] in degrees. *)
Definition SkyCoord : Type := (Q * Q)%type.

(** [cat['sc'] = SkyCoord(cat['ra'], cat['dec'], unit='deg')], row by row. *)
Definition sc (r : CatRow) : SkyCoord := (ra r, dec r).

Section Matching.

(** Great-circle separation of two positions, in arcseconds. *)
Variable separation : SkyCoord -> SkyCoord -> Q.

(** Scan of the catalogue for the nearest entry: [best] is the index and
    separation of the nearest entry before position [i]. *)
Fixpoint nearest_from (q : SkyCoord) (best : nat * Q) (i : nat)
  (catalog : list SkyCoord) : nat * Q :=
  match catalog with
  | [] => best
  | c :: catalog' =>
      let s := separation q c in
      if Qlt_bool s (snd best)
      then nearest_from q (i, s) (S i) catalog'
      else nearest_from q best (S i) catalog'
  end.

Definition nearest (q c0 : SkyCoord) (catalog' : list SkyCoord) : nat * Q :=
  nearest_from q (0%nat, separation q c0) 1 catalog'.

(** [idx, sep2d, _ = self.match_to_catalog_sky(catalog)].

    The function is astropy's.  For every position of [self] it gives the
    index of the nearest position of [catalog] and the separation to it.
    Among exactly tied entries astropy fixes no choice (it asks a k-d
    tree); the model takes the first, and the statements below either do
    not depend on the choice or say that they do.  astropy
    refuses a catalogue of length 0 with a [ValueError] ("The catalog for
    coordinate matching cannot be a scalar or length-0."), which is why
    [build_master_catalog] does not call it against the empty master. *)
Definition match_to_catalog_sky (self catalog : list SkyCoord)
  : Result (list nat * list Q) :=
  match catalog with
  | [] => raise ValueError
  | c0 :: catalog' =>
      inr (List.split (map (fun q => nearest q c0 catalog') self))
  end.

(** [sep2d < matching_radius * u.arcsec] *)
Definition within (matching_radius : Q) (sep2d : list Q) : list bool :=
  map (fun s => Qlt_bool s matching_radius) sep2d.

(* =================================================================== *)
(** ** [cross_match_datasets], the catalogue part *)
(* =================================================================== *)

(** A row of [matched_catalog]: the columns of both sides (prefixed by
    the two configuration names in the source) and the four default
    columns added at the end. *)
Record MatchedRow : Type := mkMatchedRow {
  left_row : CatRow;
  right_row : CatRow;
  m_object_id : string;
  m_ra : Q;
  m_dec : Q;
  m_healpix : Z
}.

(** [hstack([cat_left, cat_right], table_names=..., uniq_col_name=...)] of
    two tables of equal length: row [i] holds the columns of both sides,
    told apart by the two configuration names (taken to differ). *)
Definition hstack (cat_left cat_right : Catalog) : list (CatRow * CatRow) :=
  combine cat_left cat_right.

Definition same_healpix (p : CatRow * CatRow) : bool :=
  (healpix (fst p) =? healpix (snd p))%Z.

(** The default columns: [object_id], [ra], [dec], [healpix]
    (lines 126-134).  [ra] and [dec] are [0.5 * (l + r)], here on
    rationals; the code computes them in float64, where the sum is
    rounded. *)
Definition default_columns (p : CatRow * CatRow) : MatchedRow :=
  {| left_row := fst p;
     right_row := snd p;
     m_object_id := object_id (fst p);
     m_ra := (1 # 2) * (ra (fst p) + ra (snd p));
     m_dec := (1 # 2) * (dec (fst p) + dec (snd p));
     m_healpix := healpix (fst p) |}.

(** [Table.group_by(['healpix'])]: rows ordered by key, rows of equal key
    in their previous order. *)
Fixpoint insert_by_healpix (r : MatchedRow) (rows : list MatchedRow)
  : list MatchedRow :=
  match rows with
  | [] => [r]
  | r' :: rows' =>
      if (m_healpix r <=? m_healpix r')%Z
      then r :: rows
      else r' :: insert_by_healpix r rows'
  end.

Definition group_by_healpix (rows : list MatchedRow) : list MatchedRow :=
  fold_right insert_by_healpix [] rows.

(** Lines 110-123: the matched pairs, before the default columns. *)
Definition matched_pairs {R : Type} (cat_left cat_right : Catalog)
  (matching_radius : Q) : M R (list (CatRow * CatRow)) :=
  (r <~ lift (match_to_catalog_sky (map sc cat_left) (map sc cat_right)) ;;
   let idx := fst r in
   let sep2d := snd r in
   let mask := within matching_radius sep2d in
   let cat_left' := getitem_mask cat_left mask in
   cat_right' <~ lift (take cat_right (getitem_mask idx mask)) ;;
   assert_ (List.length cat_left' =? List.length cat_right')%nat ;;;
   emit (InitialMatches (List.length cat_left')) ;;;
   let matched_catalog := hstack cat_left' cat_right' in
   let mask := map same_healpix matched_catalog in
   let matched_catalog' := getitem_mask matched_catalog mask in
   emit (LostAtBorders
           (Z.of_nat (List.length cat_left')
            - Z.of_nat (List.length matched_catalog'))) ;;;
   emit (FinalSize (List.length matched_catalog')) ;;;
   retM matched_catalog')%writer.

(** [cross_match_datasets(left, right, matching_radius=...,
    return_catalog_only=True)] on the catalogues of the two builders. *)
Definition cross_match_datasets {R : Type} (cat_left cat_right : Catalog)
  (matching_radius : Q) : M R (list MatchedRow) :=
  (matched_catalog <~ matched_pairs cat_left cat_right matching_radius ;;
   assert_ (forallb same_healpix matched_catalog) ;;;
   retM (group_by_healpix (map default_columns matched_catalog)))%writer.

(* =================================================================== *)
(** ** [build_master_catalog] *)
(* =================================================================== *)

(** A row of the frame [extract_cat_params] returns: the columns
    [ra], [dec], [healpix] of the catalogue. *)
Record ParamRow : Type := mkParamRow {
  p_ra : Q;
  p_dec : Q;
  p_healpix : Z
}.

Definition extract_cat_params (cat : Catalog) : list ParamRow :=
  map (fun r => {| p_ra := ra r; p_dec := dec r; p_healpix := healpix r |})
      cat.

(** A row of the master catalogue.  [mc_present] holds the columns
    [name1, ..., nameN] and [mc_index] the columns
    [name1_idx, ..., nameN_idx], both in the order of [names]. *)
Record MasterRow : Type := mkMasterRow {
  mc_ra : Q;
  mc_dec : Q;
  mc_healpix : Z;
  mc_present : list bool;
  mc_index : list Z
}.

Definition param_sc (r : ParamRow) : SkyCoord := (p_ra r, p_dec r).
Definition master_sc (r : MasterRow) : SkyCoord := (mc_ra r, mc_dec r).

(** The column labels of the master frame (line 252). *)
Definition columns (names : list string) : list string :=
  ["ra"; "dec"; "healpix"] ++ names
    ++ map (fun name => (name ++ "_idx")%string) names.

(** The largest integers a float64 holds exactly are those up to [2^53]
    in size.  [float64_int z] is the integer [z] comes back as after a
    passage through a float64 array: [z] itself up to [2^53], and beyond
    it the nearest multiple of the spacing [2^(b - 53)] of the floats of
    its size ([b] the number of bits of [z]), a tie going to the even
    multiple. *)
Definition float64_int (z : Z) : Z :=
  if (Z.abs z <=? 2 ^ 53)%Z then z
  else
    let ulp := (2 ^ (Z.log2 (Z.abs z) - 52))%Z in
    let q := (Z.abs z / ulp)%Z in
    let r := (Z.abs z mod ulp)%Z in
    let q' :=
      if (2 * r <? ulp)%Z then q
      else if (ulp <? 2 * r)%Z then (q + 1)%Z
      else if Z.even q then q else (q + 1)%Z in
    (Z.sgn z * (q' * ulp))%Z.

(** Writing [v] in the column labelled [name]: every column that carries
    the label is written.  This is what pandas does with the scalar of
    line 266; the array of line 267 it takes for one column only, see
    [fold_catalog]. *)
Fixpoint write_column {V : Type} (names : list string) (name : string)
  (v : V) (cells : list V) : list V :=
  match names, cells with
  | n :: names', x :: cells' =>
      (if String.eqb n name then v else x) :: write_column names' name v cells'
  | _, _ => cells
  end.

Definition set_present (names : list string) (name : string) (r : MasterRow)
  : MasterRow :=
  {| mc_ra := mc_ra r; mc_dec := mc_dec r; mc_healpix := mc_healpix r;
     mc_present := write_column names name true (mc_present r);
     mc_index := mc_index r |}.

Definition set_index (names : list string) (name : string) (i : Z)
  (r : MasterRow) : MasterRow :=
  {| mc_ra := mc_ra r; mc_dec := mc_dec r; mc_healpix := mc_healpix r;
     mc_present := mc_present r;
     mc_index := write_column names name i (mc_index r) |}.

(** One row of [append_cat] (lines 278-297): the object at row [i] of the
    catalogue [name], which matched no master row.  [np.stack] (line 292)
    puts the position, flag and index columns in one float64 array, and
    line 305 turns the [healpix] column back into integers: the healpix
    index is kept up to [float64_int] (a healpix index stays below
    [2^62]).  The row numbers of a catalogue stay far below [2^53] and
    come back as they went. *)
Definition new_row (names : list string) (name : string)
  (c : ParamRow * nat) : MasterRow :=
  {| mc_ra := p_ra (fst c);
     mc_dec := p_dec (fst c);
     mc_healpix := float64_int (p_healpix (fst c));
     mc_present :=
       map (fun subname => if negb (String.eqb subname name)
                           then false else true) names;
     mc_index :=
       map (fun subname => if negb (String.eqb subname name)
                           then (-1)%Z else Z.of_nat (snd c)) names |}.

(** More than one column of the frame carries [label]. *)
Definition label_repeated (names : list string) (label : string) : bool :=
  (1 <? count_occ string_dec (columns names) label)%nat.

(** The body of the loop [for cat, name in zip(cats, names)]
    (lines 256-300).  Line 267 assigns an array to the cells of the label
    [name_idx] in the rows of [mask]; pandas refuses that with
    [ValueError] when more than one column of the frame carries the
    label, as happens when [names] repeats [name]. *)
Definition fold_catalog (names : list string) (matching_radius : Q)
  (master_cat : list MasterRow) (cat : Catalog) (name : string)
  : Result (list MasterRow) :=
  (let cat := extract_cat_params cat in
   let master_coords := map master_sc master_cat in
   let cat_coords := map param_sc cat in
   r <- match_to_catalog_sky master_coords cat_coords ;;
   let idx := fst r in
   let mask := within matching_radius (snd r) in
   let master_cat := loc_set (set_present names name) master_cat mask in
   master_cat <-
     (if label_repeated names (name ++ "_idx")%string
      then raise ValueError
      else inr (loc_assign (set_index names name) master_cat mask
                           (map Z.of_nat (getitem_mask idx mask)))) ;;
   mask <- (if (List.length master_cat =? 0)%nat
            then inr (repeat false (List.length cat))
            else (r <- match_to_catalog_sky cat_coords master_coords ;;
                  inr (within matching_radius (snd r)))) ;;
   let idx := seq 0 (List.length cat) in
   let unmatched := map negb mask in
   let append_cat :=
     map (new_row names name)
         (combine (getitem_mask cat unmatched) (getitem_mask idx unmatched)) in
   inr (master_cat ++ append_cat))%result.

Fixpoint fold_catalogs (names : list string) (matching_radius : Q)
  (master_cat : list MasterRow) (todo : list (Catalog * string))
  : Result (list MasterRow) :=
  match todo with
  | [] => inr master_cat
  | (cat, name) :: todo' =>
      (master_cat' <- fold_catalog names matching_radius master_cat cat name ;;
       fold_catalogs names matching_radius master_cat' todo')%result
  end.

(** [build_master_catalog(cats, names, matching_radius)], on the
    catalogues [get_catalog] reads for the builders [cats].  The flag and
    index columns are addressed by catalogue name and kept apart from the
    three position columns: a name that is itself the label of a position
    column or of an index column ([ra], or [n_idx] for a name [n]) is
    outside the embedding, and what is proved of a returned table is meant
    for labels [columns names] without repetition.  The final [astype]
    conversions leave the modelled values as they are. *)
Definition build_master_catalog (cats : list Catalog) (names : list string)
  (matching_radius : Q) : Result (list MasterRow) :=
  if negb (List.length cats =? List.length names)%nat
  then raise ValueError
  else fold_catalogs names matching_radius [] (combine cats names).

End Matching.

(* ===================================================================== *)
(** ** [_file_to_catalog] and [get_catalog] *)
(* ===================================================================== *)

Definition Exception_eqb (a b : Exception) : bool :=
  match a, b with
  | ValueError, ValueError
  | KeyError, KeyError
  | IndexError, IndexError
  | AssertionError, AssertionError
  | OSError, OSError
  | AttributeError, AttributeError => true
  | _, _ => false
  end.

(** [k in keys] *)
Definition mem (k : string) (keys : list string) : bool :=
  existsb (String.eqb k) keys.

(** [d[k]] on a mapping kept as a list of items; a missing key raises
    [KeyError]. *)
Fixpoint lookup {V : Type} (d : list (string * V)) (k : string) : Result V :=
  match d with
  | [] => raise KeyError
  | (k', v) :: d' => if String.eqb k' k then inr v else lookup d' k
  end.

Fixpoint mapR {A B : Type} (f : A -> Result B) (l : list A)
  : Result (list B) :=
  match l with
  | [] => inr []
  | x :: l' =>
      (y <- f x ;;
       ys <- mapR f l' ;;
       inr (y :: ys))%result
  end.

(** The decorator [safe_for_pool(exceptions, default=None)]: an exception
    of one of the listed classes becomes the default value [None] (the
    message printed on the way is left out); any other one passes
    through. *)
Definition safe_for_pool {A : Type} (exceptions : list Exception)
  (call : Result A) : Result (option A) :=
  match call with
  | inr x => inr (Some x)
  | inl err =>
      if existsb (Exception_eqb err) exceptions then inr None else inl err
  end.

(** The builder, as far as these functions read it: [dset.config.name] and
    [dset.config.data_files], the files of every split. *)
Record DatasetBuilder : Type := mkDatasetBuilder {
  config_name : string;
  data_files : list (string * list string)
}.

Section GetCatalog.

(** A dataset of an HDF5 file, and the astropy table. *)
Variable Column : Type.
Variable Table : Type.

(** [h5py.File(filename, 'r')]: the datasets of the file by name, or
    [OSError] when the file cannot be opened. *)
Variable h5py_File : string -> Result (list (string * Column)).

(** [Table({...})] and [vstack(...)], both astropy's. *)
Variable Table_ : list (string * Column) -> Result Table.
Variable vstack : list Table -> Result Table.

(** The function under the decorator (lines 27-37). *)
Definition file_to_catalog_body (filename : string) (keys : list string)
  : Result Table :=
  (data <- h5py_File filename ;;
   if mem "object_id" keys then
     if mem "object_id" (map fst data) then
       cols <- mapR (fun k => v <- lookup data k ;; inr (k, v)) keys ;;
       Table_ cols
     else if mem "source_id" (map fst data) then
       cols <- mapR (fun k =>
                       v <- (if String.eqb k "object_id"
                             then lookup data "source_id"
                             else lookup data k) ;;
                       inr (k, v)) keys ;;
       Table_ cols
     else raise KeyError
   else
     cols <- mapR (fun k => v <- lookup data k ;; inr (k, v)) keys ;;
     Table_ cols)%result.

Definition _file_to_catalog (filename : string) (keys : list string)
  : Result (option Table) :=
  safe_for_pool [OSError] (file_to_catalog_body filename keys).

(** [pool.map(func, files)] for the function
    [partial(_file_to_catalog, keys=keys)] of line 62.  The pool sends the
    function to its workers pickled, once some file is there to be sent.
    [_file_to_catalog] is the closure [safe_wrapper] that [safe_for_pool]
    builds inside [decorator] (lines 15-23), and pickle refuses a local
    object with [AttributeError]: no worker ever runs [func].  With no
    file nothing is sent and the result is the empty list. *)
Definition pool_map {A B : Type} (func : A -> Result B) (files : list A)
  : Result (list B) :=
  match files with
  | [] => inr []
  | _ :: _ => raise AttributeError
  end.

(** [[c for c in catalogs if c is not None]] *)
Fixpoint not_None {A : Type} (catalogs : list (option A)) : list A :=
  match catalogs with
  | [] => []
  | Some c :: catalogs' => c :: not_None catalogs'
  | None :: catalogs' => not_None catalogs'
  end.

(** The loop of lines 65-68, from the list [catalogs] built so far. *)
Fixpoint read_files (keys : list string) (files : list string)
  (catalogs : list Table) : Result (list Table) :=
  match files with
  | [] => inr catalogs
  | filename :: files' =>
      (catalog <- _file_to_catalog filename keys ;;
       match catalog with
       | Some c => read_files keys files' (catalogs ++ [c])
       | None => read_files keys files' catalogs
       end)%result
  end.

Definition get_catalog (dset : DatasetBuilder) (keys : list string)
  (split : string) (num_proc : Z) : Result Table :=
  (if match data_files dset with [] => true | _ => false end
   then raise ValueError
   else
     catalogs <-
       (if (1 <? num_proc)%Z then
          files <- lookup (data_files dset) split ;;
          catalogs <- pool_map (fun f => _file_to_catalog f keys) files ;;
          inr (not_None catalogs)
        else
          files <- lookup (data_files dset) split ;;
          read_files keys files []) ;;
     vstack catalogs)%result.

End GetCatalog.

(* ===================================================================== *)
(** ** [_generate_examples], the generator inside [cross_match_datasets] *)
(* ===================================================================== *)

(** [s in t] on strings. *)
Fixpoint contains (s t : string) : bool :=
  if String.prefix s t then true
  else match t with
       | EmptyString => false
       | String _ t' => contains s t'
       end.

(** [f'healpix={healpix}'] *)
Definition healpix_tag (h : Z) : string :=
  "healpix=" ++ NilZero.string_of_int (Z.to_int h).

(** [files[[i for i in range(len(files)) if tag in files[i]][0]]] *)
Fixpoint file_of_healpix (files : list string) (h : Z) : Result string :=
  match files with
  | [] => raise IndexError
  | f :: files' =>
      if contains (healpix_tag h) f then inr f else file_of_healpix files' h
  end.

(** [matched_catalog.groups]: the runs of equal [healpix]. *)
Fixpoint groups (rows : list MatchedRow) : list (list MatchedRow) :=
  match rows with
  | [] => []
  | r :: rows' =>
      match groups rows' with
      | (r' :: g) :: gs =>
          if (m_healpix r =? m_healpix r')%Z
          then (r :: r' :: g) :: gs
          else [r] :: (r' :: g) :: gs
      | _ => [[r]]
      end
  end.

Section Generator.

(** The values of an example's fields.  An example is a Python [dict]:
    its items, in insertion order, keys distinct. *)
Variable V : Type.
Definition Example : Type := list (string * V).

(** [left.name], [right.name] and the train files of the two builders. *)
Variables left_name right_name : string.
Variables files_left files_right : list string.

(** [left._generate_examples(files=..., object_ids=...)] and the same for
    [right]: the [(id, example)] pairs they yield. *)
Variables left_generate_examples right_generate_examples :
  list string -> list (list string) -> list (string * Example).

Definition dict_get (d : Example) (k : string) : option V :=
  match lookup d k with
  | inr v => Some v
  | inl _ => None
  end.

(** [d[k] = v] *)
Fixpoint dict_set (d : Example) (k : string) (v : V) : Example :=
  match d with
  | [] => [(k, v)]
  | (k', v') :: d' =>
      if String.eqb k' k then (k, v) :: d' else (k', v') :: dict_set d' k v
  end.

(** [set(example_left.keys()) | set(example_right.keys())], walked in the
    order [nodup] leaves the keys in (Python fixes none for a set). *)
Definition all_keys (example_left example_right : Example) : list string :=
  nodup string_dec (map fst example_left ++ map fst example_right).

(** Lines 172-182. *)
Definition merge_examples (example_left example_right : Example) : Example :=
  fold_left
    (fun merged_example key =>
       match dict_get example_left key, dict_get example_right key with
       | Some vl, Some vr =>
           dict_set (dict_set merged_example (left_name ++ "_" ++ key) vl)
                    (right_name ++ "_" ++ key) vr
       | Some vl, None => dict_set merged_example key vl
       | None, Some vr => dict_set merged_example key vr
       | None, None => merged_example
       end)
    (all_keys example_left example_right) [].

(** The two assertions of lines 163-164 for the pair at position [i]. *)
Definition aligned (row : MatchedRow) (left_id right_id : string) : bool :=
  contains (object_id (left_row row)) left_id
  && contains (object_id (right_row row)) right_id.

(** The loop of lines 159-183 from position [i] with the running
    [counter]; the result is the counter at the end of the streams. *)
Fixpoint merge_loop (group : list MatchedRow) (i counter : nat)
  (examples : list ((string * Example) * (string * Example)))
  : M Example nat :=
  match examples with
  | [] => retM counter
  | ((left_id, example_left), (right_id, example_right)) :: examples' =>
      (row <~ lift (getitem group i) ;;
       if aligned row left_id right_id then
         (if negb (counter =? 0)%nat
          then emit (GenerationErrors counter) else retM tt) ;;;
         emit (Yield (merge_examples example_left example_right)) ;;;
         merge_loop group (S i) 0 examples'
       else
         merge_loop group (S i) (S counter) examples')%writer
  end.

(** The body of [for group in groups] (lines 147-183). *)
Definition generate_group (group : list MatchedRow) : M Example nat :=
  (row0 <~ lift (getitem group 0) ;;
   let healpix := m_healpix row0 in
   file_left <~ lift (file_of_healpix files_left healpix) ;;
   let generator_left :=
     left_generate_examples
       [file_left] [map (fun r => object_id (left_row r)) group] in
   file_right <~ lift (file_of_healpix files_right healpix) ;;
   let generator_right :=
     right_generate_examples
       [file_right] [map (fun r => object_id (right_row r)) group] in
   merge_loop group 0 0 (combine generator_left generator_right))%writer.

Fixpoint _generate_examples (groups : list (list MatchedRow))
  : M Example unit :=
  match groups with
  | [] => retM tt
  | group :: groups' =>
      (generate_group group ;;; _generate_examples groups')%writer
  end.

End Generator.

(** A separation to run the definitions on: exact for two positions on the
    equator less than half a turn apart, and for two positions on one
    meridian. *)
Definition flat_separation (p q : SkyCoord) : Q :=
  3600 * (Qabs (fst p - fst q) + Qabs (snd p - snd q)).

Definition obj (id : string) (r : Q) (h : Z) : CatRow :=
  {| object_id := id; ra := r; dec := 0; healpix := h |}.

Definition catA : Catalog := [obj "a0" 10 1; obj "a1" 20 2; obj "a2" 30 3].
Definition catB : Catalog := [obj "b0" 40 4; obj "b1" 20 2; obj "b2" 20 2].

(** Two objects at one position, filed under different partitions. *)
Definition catD : Catalog := [obj "d0" 10 1; obj "d1" 10 2].

(** [catB] without its last row: one object at the position of ["a1"]. *)
Definition catB1 : Catalog := [obj "b0" 40 4; obj "b1" 20 2].

(** The master catalogue after [catA] alone, for the names [A], [B]. *)
Definition masterA : list MasterRow :=
  map (new_row ["A"; "B"] "A") (combine (extract_cat_params catA) (seq 0 3)).

(** A group of two matched rows and the record streams of the two
    providers for it; the first pair comes with a foreign id on the left. *)
Definition sample_group : list MatchedRow :=
  [default_columns (obj "a1" 20 2, obj "b1" 20 2);
   default_columns (obj "a3" 21 2, obj "b3" 21 2)].

Definition sample_bad
  : list ((string * list (string * Z)) * (string * list (string * Z))) :=
  [(("left:zz", [("flux", 1%Z)]), ("right:b1", [("flux", 2%Z)]))].


(* ===================================================================== *)
(** ** Vocabulary of the statements *)
(* ===================================================================== *)

Section Vocabulary.

Variable separation : SkyCoord -> SkyCoord -> Q.

(** Entry [j] of [catalog], at separation [s], is a nearest neighbour of
    the position [q]. *)
Definition is_nearest (q : SkyCoord) (catalog : list SkyCoord)
  (j : nat) (s : Q) : Prop :=
  exists c,
    nth_error catalog j = Some c
    /\ s = separation q c
    /\ forall c', In c' catalog -> s <= separation q c'.

(** The neighbour the match gives the row [l] in the catalogue
    [r0 :: rs]: its index and its separation. *)
Definition neighbour (r0 : CatRow) (rs : Catalog) (l : CatRow) : nat * Q :=
  nearest separation (sc l) (sc r0) (map sc rs).

Definition pair_with_neighbour (r0 : CatRow) (rs : Catalog) (l : CatRow)
  : CatRow * CatRow :=
  (l, nth (fst (neighbour r0 rs l)) (r0 :: rs) r0).

(** The nearest-neighbour pairs closer than the radius, in the order of
    the left catalogue. *)
Definition close_pairs (r0 : CatRow) (rs : Catalog) (matching_radius : Q)
  (cat_left : Catalog) : list (CatRow * CatRow) :=
  map (pair_with_neighbour r0 rs)
      (filter (fun l => Qlt_bool (snd (neighbour r0 rs l)) matching_radius)
              cat_left).

(** [partner] gives every position one of its nearest neighbours among
    the rows of [cat_right]; which one, where several are equally near, is
    left open. *)
Definition nearest_partner (cat_right : Catalog) (partner : CatRow -> CatRow)
  : Prop :=
  forall l,
    In (partner l) cat_right
    /\ forall r, In r cat_right ->
                 separation (sc l) (sc (partner l)) <= separation (sc l) (sc r).

(** The rows of [cat_left] closer than the radius to their partner, each
    with its partner, in the order of [cat_left]. *)
Definition pairs_within (partner : CatRow -> CatRow) (matching_radius : Q)
  (cat_left : Catalog) : list (CatRow * CatRow) :=
  map (fun l => (l, partner l))
      (filter (fun l => Qlt_bool (separation (sc l) (sc (partner l)))
                                 matching_radius)
              cat_left).

(** Cross-matching [cat] with an identical copy: as many matches as rows,
    none lost at a partition border, every merged position the original
    one. *)
Definition identical_match_claim (R : Type) (cat : Catalog)
  (matching_radius : Q) : Prop :=
  exists table,
    @cross_match_datasets separation R cat cat matching_radius
    = ([InitialMatches (List.length cat); LostAtBorders 0;
        FinalSize (List.length cat)], inr table)
    /\ List.length table = List.length cat
    /\ Permutation (map left_row table) cat
    /\ forall row, In row table ->
                   m_ra row == ra (left_row row)
                   /\ m_dec row == dec (left_row row).

(** What the fold does to one master row when the catalogue
    [c0 :: cs] (its positions) is folded in under [name]: a row whose
    nearest object is closer than the radius is marked present, with the
    index of that object. *)
Definition mark_match (names : list string) (name : string)
  (matching_radius : Q) (c0 : SkyCoord) (cs : list SkyCoord) (r : MasterRow)
  : MasterRow :=
  let n := nearest separation (master_sc r) c0 cs in
  if Qlt_bool (snd n) matching_radius
  then set_index names name (Z.of_nat (fst n)) (set_present names name r)
  else r.

(** The objects of the catalogue, with their row numbers, that get a new
    master row: all of them against the empty master, else those whose
    nearest master row is not closer than the radius. *)
Definition unmatched_rows (matching_radius : Q)
  (master_coords : list SkyCoord) (cat : list ParamRow)
  : list (ParamRow * nat) :=
  match master_coords with
  | [] => combine cat (seq 0 (List.length cat))
  | m0 :: ms =>
      filter (fun ci =>
                negb (Qlt_bool (snd (nearest separation (param_sc (fst ci)) m0 ms))
                               matching_radius))
             (combine cat (seq 0 (List.length cat)))
  end.

(** Folding the first catalogue [cat], filed under [name], into the empty
    master: one master row per row of [cat], in order; in row [i] the
    columns of [name] hold [True] and [i], those of every other name
    [False] and [-1]. *)
Definition first_fold_claim (cat : Catalog) (cats : list Catalog)
  (name : string) (rest : list string) (matching_radius : Q) : Prop :=
  exists master1,
    fold_catalog separation (name :: rest) matching_radius [] cat name
    = inr master1
    /\ build_master_catalog separation (cat :: cats) (name :: rest)
                            matching_radius
       = fold_catalogs separation (name :: rest) matching_radius master1
                       (combine cats rest)
    /\ List.length master1 = List.length cat
    /\ forall i row,
         nth_error master1 i = Some row ->
         forall j subname,
           nth_error (name :: rest) j = Some subname ->
           nth_error (mc_present row) j = Some (String.eqb subname name)
           /\ nth_error (mc_index row) j
              = Some (if String.eqb subname name then Z.of_nat i else (-1)%Z).

(** A match against the empty catalogue goes through and leaves every
    position of [self] without a partner below any radius. *)
Definition empty_reference_claim (self : list SkyCoord) : Prop :=
  exists idx sep2d,
    match_to_catalog_sky separation self [] = inr (idx, sep2d)
    /\ forall matching_radius,
         within matching_radius sep2d = repeat false (List.length self).

(** Folding [cat] under [name] into [master_cat], where the object at row
    [k] of [cat] has a master row at position [i]: no row is appended for
    that object, and master row [i] gets [True] and [k] in the columns of
    [name]. *)
Definition same_position_claim (names : list string) (matching_radius : Q)
  (master_cat : list MasterRow) (cat : Catalog) (name : string)
  (i k : nat) : Prop :=
  exists updated appended,
    fold_catalog separation names matching_radius master_cat cat name
    = inr (updated ++ map (new_row names name) appended)
    /\ List.length updated = List.length master_cat
    /\ ~ In k (map snd appended)
    /\ exists mrow urow,
         nth_error master_cat i = Some mrow
         /\ nth_error updated i = Some urow
         /\ forall j,
              nth_error names j = Some name ->
              (j < List.length (mc_present mrow))%nat ->
              (j < List.length (mc_index mrow))%nat ->
              nth_error (mc_present urow) j = Some true
              /\ nth_error (mc_index urow) j = Some (Z.of_nat k).


End Vocabulary.

(** From position [i] of the group on, the pairs [bad] all fail the
    check of their ids. *)
Definition misaligned_run {V : Type} (group : list MatchedRow) (i : nat)
  (bad : list ((string * list (string * V)) * (string * list (string * V))))
  : Prop :=
  forall t pair,
    nth_error bad t = Some pair ->
    exists row,
      nth_error group (i + t) = Some row
      /\ aligned row (fst (fst pair)) (fst (snd pair)) = false.

(** Files to run [get_catalog] on: the second one cannot be opened, the
    third stores its ids under [source_id]. *)
Definition sample_h5 (filename : string) : Result (list (string * list Z)) :=
  if String.eqb filename "healpix=1/a.hdf5" then
    inr [("object_id", [1; 2]%Z); ("ra", [10; 20]%Z)]
  else if String.eqb filename "healpix=2/a.hdf5" then
    inl OSError
  else
    inr [("source_id", [3]%Z); ("ra", [30]%Z)].

Definition sample_builder : DatasetBuilder :=
  {| config_name := "a";
     data_files := [("train", ["healpix=1/a.hdf5"; "healpix=2/a.hdf5";
                               "healpix=3/a.hdf5"])] |}.

(** Stand-ins for the two astropy calls: a table is its list of columns,
    stacking appends the tables. *)
Definition sample_Table (cols : list (string * list Z))
  : Result (list (string * list Z)) := inr cols.

Definition sample_vstack (tables : list (list (string * list Z)))
  : Result (list (string * list Z)) := inr (List.concat tables).

(** A file that [h5py] opens. *)
Definition readable {Column : Type}
  (h5py_File : string -> Result (list (string * Column))) (filename : string)
  : bool :=
  match h5py_File filename with
  | inl OSError => false
  | _ => true
  end.


(** [sample_builder] without the file that cannot be opened. *)
Definition sample_builder_readable : DatasetBuilder :=
  {| config_name := "a";
     data_files := [("train", ["healpix=1/a.hdf5"; "healpix=3/a.hdf5"])] |}.

(** [sample_h5] with the ids of the third file stored as [object_id]. *)
Definition sample_h5_renamed (filename : string)
  : Result (list (string * list Z)) :=
  if String.eqb filename "healpix=3/a.hdf5" then
    inr [("object_id", [3]%Z); ("source_id", [3]%Z); ("ra", [30]%Z)]
  else sample_h5 filename.

Section MasterVocabulary.

Variable separation : SkyCoord -> SkyCoord -> Q.

(** Every index a master row records under a true flag is the row number
    of an object, in a catalogue folded under that name, that lies at the
    position of the master row or closer to it than the radius. *)
Definition row_linked (names : list string)
  (folded : list (Catalog * string)) (matching_radius : Q) (row : MasterRow)
  : Prop :=
  forall j name i,
    nth_error names j = Some name ->
    nth_error (mc_present row) j = Some true ->
    nth_error (mc_index row) j = Some i ->
    exists cat o,
      In (cat, name) folded
      /\ (0 <= i)%Z
      /\ nth_error cat (Z.to_nat i) = Some o
      /\ (master_sc row = sc o
          \/ separation (master_sc row) (sc o) < matching_radius).

End MasterVocabulary.

(** From position [i] of the group on, the pairs [good] all pass the
    check of their ids. *)
Definition aligned_run {V : Type} (group : list MatchedRow) (i : nat)
  (good : list ((string * list (string * V)) * (string * list (string * V))))
  : Prop :=
  forall t pair,
    nth_error good t = Some pair ->
    exists row,
      nth_error group (i + t) = Some row
      /\ aligned row (fst (fst pair)) (fst (snd pair)) = true.

(** [s] occurs in [t]. *)
Definition is_substring (s t : string) : Prop :=
  exists a b, t = (a ++ s ++ b)%string.

(** The streams the two providers give for [sample_group], in step with
    it. *)
Definition sample_left_stream : list (string * list (string * Z)) :=
  [("left:a1", [("flux", 1%Z)]); ("left:a3", [("flux", 3%Z)])].

Definition sample_right_stream : list (string * list (string * Z)) :=
  [("right:b1", [("flux", 2%Z)]); ("right:b3", [("mag", 4%Z)])].

Section MergeVocabulary.

Variable V : Type.
Variables left_name right_name : string.

(** The items a merge writes, key by key: a key of both sides gives two
    items under the two prefixed names, a key of one side one item under
    its own name. *)
Definition merged_items (left_dict right_dict : list (string * V))
  : list (string * V) :=
  flat_map
    (fun key =>
       match dict_get V left_dict key, dict_get V right_dict key with
       | Some vl, Some vr =>
           [((left_name ++ "_" ++ key)%string, vl); ((right_name ++ "_" ++ key)%string, vr)]
       | Some vl, None => [(key, vl)]
       | None, Some vr => [(key, vr)]
       | None, None => []
       end)
    (all_keys V left_dict right_dict).

(** The features of the new dataset (lines 185-195), from
    [left.info.features] and [right.info.features]: the same walk over the
    keys as for the examples. *)
Definition merge_features (left_features right_features : list (string * V))
  : list (string * V) :=
  fold_left
    (fun features key =>
       match dict_get V left_features key, dict_get V right_features key with
       | Some fl, Some fr =>
           dict_set V (dict_set V features (left_name ++ "_" ++ key) fl)
                    (right_name ++ "_" ++ key) fr
       | Some fl, None => dict_set V features key fl
       | None, Some fr => dict_set V features key fr
       | None, None => features
       end)
    (all_keys V left_features right_features) [].

End MergeVocabulary.

(** Writing a list of items into a record, one [d[k] = v] after the
    other. *)
Definition set_items {V : Type} (d items : list (string * V))
  : list (string * V) :=
  fold_left (fun d kv => dict_set V d (fst kv) (snd kv)) items d.

(** A catalogue far from [catA]. *)
Definition catFar : Catalog := [obj "z0" 100 9; obj "z1" 120 9].

(** The files of the two builders for partition 2 and two pairs of
    providers for [sample_group]: one in step with it, one that gives
    foreign ids on the left. *)
Definition sample_files_left : list string := ["left/healpix=2/a.hdf5"].
Definition sample_files_right : list string := ["right/healpix=2/b.hdf5"].

Definition sample_left_provider (files : list string)
  (object_ids : list (list string)) : list (string * list (string * Z)) :=
  sample_left_stream.

Definition sample_right_provider (files : list string)
  (object_ids : list (list string)) : list (string * list (string * Z)) :=
  sample_right_stream.

Definition sample_left_drifted (files : list string)
  (object_ids : list (list string)) : list (string * list (string * Z)) :=
  [("left:zz", [("flux", 1%Z)]); ("left:yy", [("flux", 3%Z)])].

(** Two examples that share the key [id], and the features of their
    builders, listed in another order. *)
Definition sample_example_left : list (string * Z) :=
  [("flux", 3%Z); ("id", 1%Z)].
Definition sample_example_right : list (string * Z) :=
  [("mag", 4%Z); ("id", 2%Z)].
Definition sample_features_left : list (string * string) :=
  [("id", "int64"); ("flux", "float32")].
Definition sample_features_right : list (string * string) :=
  [("id", "int64"); ("mag", "float32")].

(** Every row of the group [g1] has a smaller partition key than every
    row of the group [g2]. *)
Definition group_before (g1 g2 : list MatchedRow) : Prop :=
  forall a b, In a g1 -> In b g2 -> (m_healpix a < m_healpix b)%Z.

(** The rows of a group are of one partition, that of its first row. *)
Definition one_partition (g : list MatchedRow) : Prop :=
  exists r0,
    nth_error g 0 = Some r0
    /\ Forall (fun r => m_healpix r = m_healpix r0) g.

(* ===================================================================== *)
(** * Properties *)
(* ===================================================================== *)

(** ** Arrays *)

Lemma Qlt_bool_iff (x y : Q) : Qlt_bool x y = true <-> x < y.
Proof.
  unfold Qlt_bool. rewrite negb_true_iff.
  split; intro H.
  - apply Qnot_le_lt. intro Hle. apply Qle_bool_iff in Hle. congruence.
  - destruct (Qle_bool y x) eqn:E; [|reflexivity].
    apply Qle_bool_iff in E. exfalso. exact (Qlt_not_le _ _ H E).
Qed.

Lemma Qlt_bool_false (x y : Q) : Qlt_bool x y = false <-> y <= x.
Proof.
  unfold Qlt_bool. rewrite negb_false_iff. apply Qle_bool_iff.
Qed.

Lemma split_map {A B C : Type} (f : A -> B * C) (l : list A) :
  List.split (map f l) = (map (fun x => fst (f x)) l, map (fun x => snd (f x)) l).
Proof.
  induction l as [|x l IH]; simpl; [reflexivity|].
  rewrite IH. destruct (f x); reflexivity.
Qed.

Lemma getitem_mask_map {A B : Type} (h : A -> B) (p : A -> bool) (a : list A) :
  getitem_mask (map h a) (map p a) = map h (filter p a).
Proof.
  induction a as [|x a IH]; simpl; [reflexivity|].
  destruct (p x); simpl; now rewrite IH.
Qed.

Lemma getitem_mask_filter {A : Type} (p : A -> bool) (a : list A) :
  getitem_mask a (map p a) = filter p a.
Proof.
  rewrite <- (map_id a) at 1. rewrite getitem_mask_map. apply map_id.
Qed.

Lemma take_map {A B : Type} (a : list A) (d : A) (h : B -> nat) (l : list B) :
  (forall x, In x l -> (h x < List.length a)%nat) ->
  take a (map h l) = inr (map (fun x => nth (h x) a d) l).
Proof.
  induction l as [|x l IH]; intros Hb; simpl; [reflexivity|].
  unfold getitem.
  destruct (nth_error a (h x)) eqn:E.
  - simpl. rewrite IH by (intros; apply Hb; now right). simpl.
    now rewrite (nth_error_nth _ _ d E).
  - apply nth_error_None in E. specialize (Hb x (or_introl eq_refl)). lia.
Qed.

Lemma take_length {A : Type} (a : list A) (idx : list nat) (xs : list A) :
  take a idx = inr xs -> List.length xs = List.length idx.
Proof.
  revert xs. induction idx as [|i idx IH]; simpl; intros xs H.
  - injection H as <-. reflexivity.
  - destruct (getitem a i); simpl in H; [discriminate|].
    destruct (take a idx) as [e|ys]; simpl in H; [discriminate|].
    injection H as <-. simpl. now rewrite (IH ys eq_refl).
Qed.

Lemma combine_map_r {A B : Type} (h : A -> B) (l : list A) :
  combine l (map h l) = map (fun x => (x, h x)) l.
Proof.
  induction l as [|x l IH]; simpl; [reflexivity|]. now rewrite IH.
Qed.

Lemma forallb_filter_same {A : Type} (p : A -> bool) (l : list A) :
  forallb p (filter p l) = true.
Proof.
  apply forallb_forall. intros x Hx. now apply filter_In in Hx.
Qed.

Lemma filter_length_split {A : Type} (p : A -> bool) (l : list A) :
  List.length l
  = (List.length (filter p l) + List.length (filter (fun x => negb (p x)) l))%nat.
Proof.
  induction l as [|x l IH]; simpl; [reflexivity|].
  destruct (p x); simpl; lia.
Qed.

(** ** The writer *)

Lemma bindM_lift_inr {R A B : Type} (x : A) (k : A -> M R B) :
  bindM (lift (inr x)) k = k x.
Proof. unfold bindM, lift. simpl. now destruct (k x). Qed.

Lemma bindM_lift_inl {R A B : Type} (e : Exception) (k : A -> M R B) :
  bindM (lift (inl e)) k = ([], inl e).
Proof. reflexivity. Qed.

Lemma bindM_retM {R A B : Type} (x : A) (k : A -> M R B) :
  bindM (retM x) k = k x.
Proof. unfold bindM, retM. simpl. now destruct (k x). Qed.

Lemma bindM_emit {R B : Type} (ev : Event R) (k : unit -> M R B) :
  bindM (emit ev) k = (ev :: fst (k tt), snd (k tt)).
Proof. reflexivity. Qed.

Lemma bindM_assert_true {R B : Type} (k : unit -> M R B) :
  bindM (assert_ true) k = k tt.
Proof. unfold assert_. apply bindM_retM. Qed.

(** ** The spatial match *)

Section MatchFacts.

Variable separation : SkyCoord -> SkyCoord -> Q.

Lemma nearest_from_spec (q : SkyCoord) (catalog : list SkyCoord) :
  forall (best : nat * Q) (i : nat),
    let res := nearest_from separation q best i catalog in
    (res = best /\ forall c, In c catalog -> snd best <= separation q c)
    \/ (exists k c,
          fst res = (i + k)%nat
          /\ nth_error catalog k = Some c
          /\ snd res = separation q c
          /\ snd res < snd best
          /\ (forall c', In c' catalog -> snd res <= separation q c')
          /\ (forall k' c', (k' < k)%nat -> nth_error catalog k' = Some c' ->
                            snd res < separation q c')).
Proof.
  induction catalog as [|c catalog IH]; intros best i; simpl.
  - left. split; [reflexivity|]. intros c [].
  - destruct (Qlt_bool (separation q c) (snd best)) eqn:E.
    + apply Qlt_bool_iff in E.
      destruct (IH (i, separation q c) (S i)) as [[Heq Hmin]|Hex].
      * right. exists 0%nat, c. rewrite Heq. simpl.
        repeat split; try assumption.
        -- f_equal. lia.
        -- intros c' [<-|Hin]; [apply Qle_refl | now apply Hmin].
        -- intros k' c' Hk. lia.
      * destruct Hex as (k & c1 & Hi & Hn & Hs & Hlt & Hmin & Hfirst).
        simpl in Hlt. right. exists (S k), c1.
        repeat split; try assumption.
        -- rewrite Hi. lia.
        -- eapply Qlt_trans; eassumption.
        -- intros c' [<-|Hin]; [now apply Qlt_le_weak | now apply Hmin].
        -- intros [|k'] c' Hk Hn'; simpl in Hn'.
           ++ injection Hn' as <-. exact Hlt.
           ++ apply (Hfirst k'); [lia | assumption].
    + apply Qlt_bool_false in E.
      destruct (IH best (S i)) as [[Heq Hmin]|Hex].
      * left. split; [assumption|].
        intros c' [<-|Hin]; [assumption | now apply Hmin].
      * destruct Hex as (k & c1 & Hi & Hn & Hs & Hlt & Hmin & Hfirst).
        right. exists (S k), c1.
        repeat split; try assumption.
        -- rewrite Hi. lia.
        -- intros c' [<-|Hin]; [|now apply Hmin].
           apply Qlt_le_weak. eapply Qlt_le_trans; eassumption.
        -- intros [|k'] c' Hk Hn'; simpl in Hn'.
           ++ injection Hn' as <-. eapply Qlt_le_trans; eassumption.
           ++ apply (Hfirst k'); [lia | assumption].
Qed.

(** The entry the scan returns is a nearest one, and the first such. *)
Lemma nearest_spec (q c0 : SkyCoord) (catalog' : list SkyCoord) :
  let res := nearest separation q c0 catalog' in
  exists c,
    nth_error (c0 :: catalog') (fst res) = Some c
    /\ snd res = separation q c
    /\ (forall c', In c' (c0 :: catalog') -> snd res <= separation q c')
    /\ (forall k' c', (k' < fst res)%nat ->
                      nth_error (c0 :: catalog') k' = Some c' ->
                      snd res < separation q c').
Proof.
  unfold nearest.
  destruct (nearest_from_spec q catalog' (0%nat, separation q c0) 1)
    as [[Heq Hmin]|Hex]; simpl in *.
  - rewrite Heq. exists c0. simpl. repeat split.
    + intros c' [<-|Hin]; [apply Qle_refl | now apply Hmin].
    + intros k' c' Hk. lia.
  - destruct Hex as (k & c1 & Hi & Hn & Hs & Hlt & Hmin & Hfirst).
    exists c1. rewrite Hi. simpl. repeat split; try assumption.
    + intros c' [<-|Hin]; [now apply Qlt_le_weak | now apply Hmin].
    + intros [|k'] c' Hk Hn'; simpl in Hn'.
      * injection Hn' as <-. exact Hlt.
      * apply (Hfirst k'); [lia | assumption].
Qed.

Lemma nearest_bound (q c0 : SkyCoord) (catalog' : list SkyCoord) :
  (fst (nearest separation q c0 catalog') < S (List.length catalog'))%nat.
Proof.
  destruct (nearest_spec q c0 catalog') as (c & Hn & _).
  change (S (List.length catalog')) with (List.length (c0 :: catalog')).
  apply nth_error_Some. congruence.
Qed.

Lemma nearest_is_nearest (q c0 : SkyCoord) (catalog' : list SkyCoord) :
  is_nearest separation q (c0 :: catalog')
             (fst (nearest separation q c0 catalog'))
             (snd (nearest separation q c0 catalog')).
Proof.
  destruct (nearest_spec q c0 catalog') as (c & Hn & Hs & Hmin & _).
  exists c. auto.
Qed.

End MatchFacts.


(** ** The cross-matched catalogue *)

Lemma insert_by_healpix_perm (r : MatchedRow) (rows : list MatchedRow) :
  Permutation (insert_by_healpix r rows) (r :: rows).
Proof.
  induction rows as [|r' rows IH]; simpl; [apply Permutation_refl|].
  destruct (m_healpix r <=? m_healpix r')%Z; [apply Permutation_refl|].
  eapply perm_trans; [apply perm_skip, IH | apply perm_swap].
Qed.

Lemma group_by_healpix_perm (rows : list MatchedRow) :
  Permutation (group_by_healpix rows) rows.
Proof.
  induction rows as [|r rows IH]; simpl; [apply perm_nil|].
  eapply perm_trans; [apply insert_by_healpix_perm | now apply perm_skip].
Qed.

Section CrossMatchFacts.

Variable separation : SkyCoord -> SkyCoord -> Q.
Variable R : Type.

Lemma match_to_catalog_sky_cons (self : list SkyCoord) (c0 : SkyCoord)
  (cs : list SkyCoord) :
  match_to_catalog_sky separation self (c0 :: cs)
  = inr (map (fun q => fst (nearest separation q c0 cs)) self,
         map (fun q => snd (nearest separation q c0 cs)) self).
Proof.
  unfold match_to_catalog_sky. now rewrite split_map.
Qed.

Lemma match_to_catalog_sky_empty (self : list SkyCoord) :
  match_to_catalog_sky separation self [] = inl ValueError.
Proof. reflexivity. Qed.

Lemma neighbour_bound (r0 : CatRow) (rs : Catalog) (l : CatRow) :
  (fst (neighbour separation r0 rs l) < List.length (r0 :: rs))%nat.
Proof.
  unfold neighbour. simpl.
  rewrite <- (length_map sc rs). apply nearest_bound.
Qed.

(** The array pipeline of lines 110-123 computes the close pairs row by
    row, keeps those of equal partition key and prints the three counts. *)
Lemma matched_pairs_run (cat_left : Catalog) (r0 : CatRow) (rs : Catalog)
  (matching_radius : Q) :
  let close := close_pairs separation r0 rs matching_radius cat_left in
  let kept := filter same_healpix close in
  @matched_pairs separation R cat_left (r0 :: rs) matching_radius
  = ([InitialMatches (List.length close);
      LostAtBorders (Z.of_nat (List.length close) - Z.of_nat (List.length kept));
      FinalSize (List.length kept)],
     inr kept).
Proof.
  intros close kept. unfold matched_pairs.
  change (map sc (r0 :: rs)) with (sc r0 :: map sc rs).
  rewrite match_to_catalog_sky_cons, bindM_lift_inr.
  cbn [fst snd]. unfold within. rewrite !map_map.
  change (fun x : CatRow => Qlt_bool (snd (nearest separation (sc x) (sc r0) (map sc rs))) matching_radius)
    with (fun l : CatRow => Qlt_bool (snd (neighbour separation r0 rs l)) matching_radius).
  set (p := fun l : CatRow =>
              Qlt_bool (snd (neighbour separation r0 rs l)) matching_radius).
  rewrite getitem_mask_filter.
  change (fun x : CatRow => fst (nearest separation (sc x) (sc r0) (map sc rs)))
    with (fun l : CatRow => fst (neighbour separation r0 rs l)).
  rewrite getitem_mask_map.
  rewrite (take_map (r0 :: rs) r0 (fun l => fst (neighbour separation r0 rs l)))
    by (intros; apply neighbour_bound).
  rewrite bindM_lift_inr, length_map, Nat.eqb_refl, bindM_assert_true.
  unfold hstack. rewrite combine_map_r.
  change (map (fun x : CatRow => (x, nth (fst (neighbour separation r0 rs x)) (r0 :: rs) r0))
              (filter p cat_left)) with close.
  rewrite getitem_mask_filter. fold kept.
  replace (List.length (filter p cat_left)) with (List.length close)
    by (unfold close, close_pairs; now rewrite length_map).
  rewrite !bindM_emit. reflexivity.
Qed.

Lemma matched_pairs_empty (cat_left : Catalog) (matching_radius : Q) :
  @matched_pairs separation R cat_left [] matching_radius = ([], inl ValueError).
Proof. reflexivity. Qed.

Lemma cross_match_datasets_run (cat_left : Catalog) (r0 : CatRow)
  (rs : Catalog) (matching_radius : Q) :
  let close := close_pairs separation r0 rs matching_radius cat_left in
  let kept := filter same_healpix close in
  @cross_match_datasets separation R cat_left (r0 :: rs) matching_radius
  = ([InitialMatches (List.length close);
      LostAtBorders (Z.of_nat (List.length close) - Z.of_nat (List.length kept));
      FinalSize (List.length kept)],
     inr (group_by_healpix (map default_columns kept))).
Proof.
  intros close kept. unfold cross_match_datasets.
  rewrite matched_pairs_run. fold close. fold kept.
  unfold bindM at 1. cbn [fst snd].
  assert (Hk : forallb same_healpix kept = true)
    by apply forallb_filter_same.
  rewrite Hk, bindM_assert_true.
  cbn [fst snd retM]. now rewrite app_nil_r.
Qed.

Lemma filter_all {A : Type} (p : A -> bool) (l : list A) :
  (forall x, In x l -> p x = true) -> filter p l = l.
Proof.
  induction l as [|x l IH]; intros H; simpl; [reflexivity|].
  rewrite (H x (or_introl eq_refl)), IH; [reflexivity|].
  intros y Hy. apply H. now right.
Qed.

Lemma close_pairs_In (cat_left : Catalog) (r0 : CatRow) (rs : Catalog)
  (matching_radius : Q) (l r : CatRow) :
  In (l, r) (close_pairs separation r0 rs matching_radius cat_left)
  <-> In l cat_left
      /\ r = nth (fst (neighbour separation r0 rs l)) (r0 :: rs) r0
      /\ snd (neighbour separation r0 rs l) < matching_radius.
Proof.
  unfold close_pairs. rewrite in_map_iff. split.
  - intros (l' & Heq & Hin). apply filter_In in Hin as [Hin Hlt].
    unfold pair_with_neighbour in Heq. injection Heq as -> <-.
    apply Qlt_bool_iff in Hlt. auto.
  - intros (Hin & -> & Hlt). exists l. split; [reflexivity|].
    apply filter_In. split; [assumption | now apply Qlt_bool_iff].
Qed.

Lemma neighbour_is_nearest (r0 : CatRow) (rs : Catalog) (l : CatRow) :
  is_nearest separation (sc l) (map sc (r0 :: rs))
             (fst (neighbour separation r0 rs l))
             (snd (neighbour separation r0 rs l)).
Proof. apply nearest_is_nearest. Qed.

(** C7. In [cross_match_datasets] neither assertion can fail: the rows
    selected on the left and on the right are equally many, every pair
    that passes the partition filter has equal partition keys, and the
    function never ends in an [AssertionError]. *)
Theorem assertions_never_fire (cat_left cat_right : Catalog)
  (matching_radius : Q) :
  snd (@matched_pairs separation R cat_left cat_right matching_radius)
    <> inl AssertionError
  /\ snd (@cross_match_datasets separation R cat_left cat_right matching_radius)
       <> inl AssertionError
  /\ match match_to_catalog_sky separation (map sc cat_left) (map sc cat_right)
     with
     | inl _ => True
     | inr (idx, sep2d) =>
         let mask := within matching_radius sep2d in
         match take cat_right (getitem_mask idx mask) with
         | inl _ => False
         | inr cat_right' =>
             List.length (getitem_mask cat_left mask) = List.length cat_right'
         end
     end
  /\ forall matched_catalog : list (CatRow * CatRow),
       forallb same_healpix
               (getitem_mask matched_catalog (map same_healpix matched_catalog))
       = true.
Proof.
  destruct cat_right as [|r0 rs].
  - repeat split; try discriminate.
    intro m. rewrite getitem_mask_filter. apply forallb_filter_same.
  - split; [rewrite matched_pairs_run; discriminate|].
    split; [rewrite cross_match_datasets_run; discriminate|].
    split.
    + change (map sc (r0 :: rs)) with (sc r0 :: map sc rs).
      rewrite match_to_catalog_sky_cons. cbv zeta. unfold within.
      rewrite !map_map, getitem_mask_filter, getitem_mask_map.
      rewrite (take_map (r0 :: rs) r0
                 (fun l => fst (nearest separation (sc l) (sc r0) (map sc rs)))).
      * now rewrite length_map.
      * intros l _. apply (neighbour_bound r0 rs l).
    + intro m. rewrite getitem_mask_filter. apply forallb_filter_same.
Qed.

Lemma neighbour_separation (r0 : CatRow) (rs : Catalog) (l : CatRow) :
  snd (neighbour separation r0 rs l)
  = separation (sc l)
               (sc (nth (fst (neighbour separation r0 rs l)) (r0 :: rs) r0)).
Proof.
  destruct (neighbour_is_nearest r0 rs l) as (c & Hn & Hs & _).
  rewrite nth_error_map in Hn.
  rewrite (nth_error_nth' (r0 :: rs) r0 (neighbour_bound r0 rs l)) in Hn.
  cbn [option_map] in Hn. injection Hn as <-. exact Hs.
Qed.

Lemma neighbour_partner (r0 : CatRow) (rs : Catalog) :
  nearest_partner separation (r0 :: rs)
    (fun l => nth (fst (neighbour separation r0 rs l)) (r0 :: rs) r0).
Proof.
  intro l. split; [apply nth_In, neighbour_bound|].
  intros r Hr. rewrite <- neighbour_separation.
  destruct (neighbour_is_nearest r0 rs l) as (c & _ & _ & Hmin).
  apply Hmin. now apply in_map.
Qed.

Lemma pairs_within_neighbour (r0 : CatRow) (rs : Catalog)
  (matching_radius : Q) (cat_left : Catalog) :
  pairs_within separation
    (fun l => nth (fst (neighbour separation r0 rs l)) (r0 :: rs) r0)
    matching_radius cat_left
  = close_pairs separation r0 rs matching_radius cat_left.
Proof.
  unfold pairs_within, close_pairs.
  rewrite (filter_ext
             (fun l => Qlt_bool
                         (separation (sc l)
                            (sc (nth (fst (neighbour separation r0 rs l))
                                     (r0 :: rs) r0)))
                         matching_radius)
             (fun l => Qlt_bool (snd (neighbour separation r0 rs l))
                                matching_radius)).
  - reflexivity.
  - intro l. now rewrite <- neighbour_separation.
Qed.

Lemma sides_default_columns (pairs : list (CatRow * CatRow)) :
  map (fun row => (left_row row, right_row row)) (map default_columns pairs)
  = pairs.
Proof.
  rewrite map_map. rewrite <- (map_id pairs) at 2.
  apply map_ext. now intros [l r].
Qed.

(** C4. For a right catalogue with a row, the match gives every row of the
    left catalogue one of its nearest neighbours on the right.  The table
    holds, each once and up to the order of the rows, the pairs (left row,
    that neighbour) that are closer than the radius and carry the same
    partition key on both sides; the close pairs of different keys are
    dropped, and their number is what is printed as lost.  For a right
    catalogue without rows no table is produced. *)
Theorem cross_match_rows (cat_left : Catalog) (r0 : CatRow) (rs : Catalog)
  (matching_radius : Q) :
  (exists partner,
      nearest_partner separation (r0 :: rs) partner
      /\ let close := pairs_within separation partner matching_radius cat_left in
         let kept := filter same_healpix close in
         let lost := filter (fun p => negb (same_healpix p)) close in
         (exists table,
             @cross_match_datasets separation R cat_left (r0 :: rs)
                                   matching_radius
             = ([InitialMatches (List.length close);
                 LostAtBorders (Z.of_nat (List.length lost));
                 FinalSize (List.length kept)], inr table)
             /\ Permutation
                  (map (fun row => (left_row row, right_row row)) table) kept)
         /\ (forall l r,
                In (l, r) close
                <-> In l cat_left
                    /\ r = partner l
                    /\ separation (sc l) (sc r) < matching_radius)
         /\ (forall p,
                In p kept <-> In p close /\ healpix (fst p) = healpix (snd p))
         /\ (forall p,
                In p lost
                <-> In p close /\ healpix (fst p) <> healpix (snd p)))
  /\ @cross_match_datasets separation R cat_left [] matching_radius
     = ([], inl ValueError).
Proof.
  split; [|reflexivity].
  exists (fun l => nth (fst (neighbour separation r0 rs l)) (r0 :: rs) r0).
  split; [apply neighbour_partner|].
  intros close kept lost.
  split; [|split; [|split]].
  - exists (group_by_healpix (map default_columns kept)). split.
    + rewrite cross_match_datasets_run.
      unfold kept, lost, close. rewrite !pairs_within_neighbour.
      set (c := close_pairs separation r0 rs matching_radius cat_left).
      replace (Z.of_nat (List.length c)
               - Z.of_nat (List.length (filter same_healpix c)))%Z
        with (Z.of_nat (List.length
                          (filter (fun p => negb (same_healpix p)) c)));
        [reflexivity|].
      rewrite (filter_length_split same_healpix c). lia.
    + eapply perm_trans;
        [apply Permutation_map, group_by_healpix_perm|].
      rewrite sides_default_columns. apply Permutation_refl.
  - intros l r. unfold close, pairs_within. rewrite in_map_iff. split.
    + intros (l' & Heq & Hin). apply filter_In in Hin as [Hin Hlt].
      injection Heq as -> <-. apply Qlt_bool_iff in Hlt. auto.
    + intros (Hin & -> & Hlt). exists l. split; [reflexivity|].
      apply filter_In. split; [assumption | now apply Qlt_bool_iff].
  - intro p. unfold kept. rewrite filter_In. unfold same_healpix.
    now rewrite Z.eqb_eq.
  - intro p. unfold lost. rewrite filter_In. unfold same_healpix.
    now rewrite negb_true_iff, Z.eqb_neq.
Qed.

(** X21. Every row of the table [cross_match_datasets] returns pairs a row
    of the left catalogue with a row of the right one; its [object_id] is
    the id of the left row, and its [healpix] is the partition key of the
    left row and of the right row. *)
Theorem table_rows_ids_and_keys (cat_left cat_right : Catalog)
  (matching_radius : Q) (events : list (Event R)) (table : list MatchedRow)
  (row : MatchedRow) :
  @cross_match_datasets separation R cat_left cat_right matching_radius
  = (events, inr table) ->
  In row table ->
  In (left_row row) cat_left
  /\ In (right_row row) cat_right
  /\ m_object_id row = object_id (left_row row)
  /\ m_healpix row = healpix (left_row row)
  /\ m_healpix row = healpix (right_row row).
Proof.
  intros Hrun Hin. destruct cat_right as [|r0 rs]; [discriminate|].
  rewrite cross_match_datasets_run in Hrun. injection Hrun as _ <-.
  apply (Permutation_in _ (group_by_healpix_perm _)) in Hin.
  apply in_map_iff in Hin as ([l r] & <- & Hin).
  apply filter_In in Hin as [Hin Hhp].
  apply close_pairs_In in Hin as (Hl & Hr & _).
  unfold same_healpix in Hhp. apply Z.eqb_eq in Hhp.
  cbn [fst snd] in Hhp. cbn [default_columns left_row right_row m_object_id
                             m_ra m_dec m_healpix fst snd].
  split; [assumption|].
  split; [rewrite Hr; apply nth_In, neighbour_bound|].
  split; [reflexivity|]. split; [reflexivity | assumption].
Qed.

Section Identical.

Hypothesis separation_self : forall p, separation p p == 0.
Hypothesis separation_nonneg : forall p q, 0 <= separation p q.

Lemma neighbour_of_member (r0 : CatRow) (rs : Catalog) (l : CatRow) :
  In l (r0 :: rs) ->
  snd (neighbour separation r0 rs l) == 0
  /\ exists r, In r (r0 :: rs)
               /\ r = nth (fst (neighbour separation r0 rs l)) (r0 :: rs) r0
               /\ separation (sc l) (sc r) == 0.
Proof.
  intros Hin.
  destruct (neighbour_is_nearest r0 rs l) as (c & Hn & Hs & Hmin).
  assert (H0 : snd (neighbour separation r0 rs l) == 0).
  { apply Qle_antisym.
    - rewrite <- (separation_self (sc l)). apply Hmin. now apply in_map.
    - rewrite Hs. apply separation_nonneg. }
  split; [exact H0|].
  exists (nth (fst (neighbour separation r0 rs l)) (r0 :: rs) r0).
  split; [apply nth_In, neighbour_bound|]. split; [reflexivity|].
  rewrite <- H0, Hs.
  rewrite nth_error_map in Hn.
  rewrite (nth_error_nth' (r0 :: rs) r0 (neighbour_bound r0 rs l)) in Hn.
  simpl in Hn. injection Hn as <-. reflexivity.
Qed.

(** C6. For a catalogue that is not empty and in which rows at zero
    separation from one another carry the same coordinates and the same
    partition key, a positive radius matches every row of the catalogue
    with a copy of itself: as many matches as rows, none lost, and the
    merged position is the original one. *)
Theorem identical_catalogs_match (c0 : CatRow) (cs : Catalog)
  (matching_radius : Q) :
  0 < matching_radius ->
  (forall a b, In a (c0 :: cs) -> In b (c0 :: cs) ->
               separation (sc a) (sc b) == 0 ->
               ra a == ra b /\ dec a == dec b /\ healpix a = healpix b) ->
  identical_match_claim separation R (c0 :: cs) matching_radius.
Proof.
  intros Hrad Hsame. set (cat := c0 :: cs).
  assert (Hclose : close_pairs separation c0 cs matching_radius cat
                   = map (pair_with_neighbour separation c0 cs) cat).
  { unfold close_pairs. rewrite filter_all; [reflexivity|].
    intros l Hl. apply Qlt_bool_iff.
    destruct (neighbour_of_member c0 cs l Hl) as [H0 _]. now rewrite H0. }
  assert (Hkept : filter same_healpix
                    (close_pairs separation c0 cs matching_radius cat)
                  = map (pair_with_neighbour separation c0 cs) cat).
  { rewrite Hclose. apply filter_all. intros [l r] Hin.
    apply in_map_iff in Hin as (l' & Heq & Hl').
    unfold pair_with_neighbour in Heq. injection Heq as -> <-.
    destruct (neighbour_of_member c0 cs l Hl') as (_ & r & Hr & Er & Hz).
    subst r. unfold same_healpix. apply Z.eqb_eq.
    exact (proj2 (proj2 (Hsame l _ Hl' Hr Hz))). }
  exists (group_by_healpix
            (map default_columns (map (pair_with_neighbour separation c0 cs) cat))).
  split; [|split; [|split]].
  - unfold cat at 1 2. rewrite cross_match_datasets_run. fold cat.
    rewrite Hkept, Hclose, !length_map, Z.sub_diag. reflexivity.
  - rewrite (Permutation_length (group_by_healpix_perm _)).
    now rewrite !length_map.
  - eapply perm_trans; [apply Permutation_map, group_by_healpix_perm|].
    rewrite !map_map. simpl. rewrite map_id. apply Permutation_refl.
  - intros row Hin.
    apply (Permutation_in _ (group_by_healpix_perm _)) in Hin.
    apply in_map_iff in Hin as ([l r] & <- & Hin).
    apply in_map_iff in Hin as (l' & Heq & Hl').
    unfold pair_with_neighbour in Heq. injection Heq as -> <-.
    destruct (neighbour_of_member c0 cs l Hl') as (_ & r & Hr & Er & Hz).
    subst r. destruct (Hsame l _ Hl' Hr Hz) as (Hra & Hdec & _).
    cbn [default_columns left_row m_ra m_dec fst snd].
    split; [rewrite <- Hra | rewrite <- Hdec]; field.
Qed.

End Identical.

End CrossMatchFacts.


(** ** The master catalogue *)

Lemma loc_update_rows {A V : Type} (setp : A -> A) (seti : V -> A -> A)
  (p : A -> bool) (h : A -> V) (df : list A) :
  loc_assign seti (loc_set setp df (map p df)) (map p df)
             (getitem_mask (map h df) (map p df))
  = map (fun r => if p r then seti (h r) (setp r) else r) df.
Proof.
  induction df as [|r df IH]; simpl; [reflexivity|].
  destruct (p r); simpl; now rewrite IH.
Qed.

Lemma map_getitem_mask {A B : Type} (f : A -> B) (a : list A)
  (mask : list bool) :
  map f (getitem_mask a mask) = getitem_mask (map f a) mask.
Proof.
  revert mask. induction a as [|x a IH]; intros [|m mask]; simpl;
    try reflexivity.
  destruct m; simpl; now rewrite IH.
Qed.

Lemma nth_error_Some_lt {A : Type} (l : list A) (i : nat) (x : A) :
  nth_error l i = Some x -> (i < List.length l)%nat.
Proof. intro H. apply nth_error_Some. congruence. Qed.

Lemma combine_nil_r {A B : Type} (l : list A) : combine l (@nil B) = [].
Proof. now destruct l. Qed.

Lemma getitem_mask_combine {A B : Type} (a : list A) (b : list B)
  (mask : list bool) :
  combine (getitem_mask a mask) (getitem_mask b mask)
  = getitem_mask (combine a b) mask.
Proof.
  revert b mask. induction a as [|x a IH]; intros b mask; [reflexivity|].
  destruct b as [|y b]; destruct mask as [|m mask]; try reflexivity.
  - simpl. destruct m; [reflexivity | apply combine_nil_r].
  - simpl. destruct m; simpl; now rewrite IH.
Qed.

Lemma getitem_mask_all {A : Type} (a : list A) :
  getitem_mask a (map negb (repeat false (List.length a))) = a.
Proof.
  induction a as [|x a IH]; simpl; [reflexivity|]. now rewrite IH.
Qed.

Lemma getitem_mask_all' {A B : Type} (a : list A) (b : list B) :
  getitem_mask (combine a b) (map negb (repeat false (List.length a)))
  = combine a b.
Proof.
  revert b. induction a as [|x a IH]; intros [|y b]; simpl; try reflexivity.
  now rewrite IH.
Qed.

Lemma map_fst_combine_seq {A : Type} (a : list A) (start : nat) :
  map fst (combine a (seq start (List.length a))) = a.
Proof.
  revert start. induction a as [|x a IH]; intro start; simpl; [reflexivity|].
  now rewrite IH.
Qed.

Lemma nth_error_combine_seq {A : Type} (a : list A) (start i : nat) (x : A) :
  nth_error a i = Some x ->
  nth_error (combine a (seq start (List.length a))) i = Some (x, (start + i)%nat).
Proof.
  revert start i. induction a as [|y a IH]; intros start [|i] H;
    simpl in *; try discriminate.
  - injection H as ->. now rewrite Nat.add_0_r.
  - rewrite (IH (S start) i H). f_equal. f_equal. lia.
Qed.

Lemma In_combine_seq {A : Type} (a : list A) (start : nat) (x : A) (i : nat) :
  In (x, i) (combine a (seq start (List.length a))) ->
  (start <= i)%nat /\ nth_error a (i - start) = Some x.
Proof.
  revert start. induction a as [|y a IH]; intros start H; simpl in *; [easy|].
  destruct H as [H|H].
  - injection H as -> ->. rewrite Nat.sub_diag. auto.
  - apply IH in H as [Hle Hn]. split; [lia|].
    replace (i - start)%nat with (S (i - S start)) by lia. exact Hn.
Qed.

Section MasterFacts.

Variable separation : SkyCoord -> SkyCoord -> Q.

Lemma param_sc_extract (cat : Catalog) :
  map (param_sc) (extract_cat_params cat) = map sc cat.
Proof.
  unfold extract_cat_params. rewrite map_map. reflexivity.
Qed.

(** A catalogue without rows cannot be folded in: the match of the master
    rows against it is refused. *)
Lemma fold_catalog_empty (names : list string) (matching_radius : Q)
  (master_cat : list MasterRow) (name : string) :
  fold_catalog separation names matching_radius master_cat [] name
  = inl ValueError.
Proof. reflexivity. Qed.

Lemma label_repeated_NoDup (names : list string) (label : string) :
  NoDup (columns names) -> label_repeated names label = false.
Proof.
  intro H. unfold label_repeated. apply Nat.ltb_ge.
  now apply (proj1 (NoDup_count_occ string_dec (columns names))).
Qed.

(** A label that several columns carry stops the loop body at the
    assignment of the row numbers. *)
Lemma fold_catalog_repeated (names : list string) (matching_radius : Q)
  (master_cat : list MasterRow) (c0 : CatRow) (cs : Catalog) (name : string) :
  label_repeated names (name ++ "_idx") = true ->
  fold_catalog separation names matching_radius master_cat (c0 :: cs) name
  = inl ValueError.
Proof.
  intro Hlab. unfold fold_catalog. rewrite param_sc_extract.
  change (map sc (c0 :: cs)) with (sc c0 :: map sc cs).
  rewrite match_to_catalog_sky_cons. cbn [bindR fst snd].
  rewrite Hlab. reflexivity.
Qed.

(** The loop body, row by row. *)
Lemma fold_catalog_run (names : list string) (matching_radius : Q)
  (master_cat : list MasterRow) (c0 : CatRow) (cs : Catalog) (name : string) :
  label_repeated names (name ++ "_idx") = false ->
  fold_catalog separation names matching_radius master_cat (c0 :: cs) name
  = inr (map (mark_match separation names name matching_radius
                         (sc c0) (map sc cs)) master_cat
         ++ map (new_row names name)
                (unmatched_rows separation matching_radius
                                (map master_sc master_cat)
                                (extract_cat_params (c0 :: cs)))).
Proof.
  intro Hlab.
  unfold fold_catalog. rewrite param_sc_extract.
  change (map sc (c0 :: cs)) with (sc c0 :: map sc cs).
  rewrite match_to_catalog_sky_cons. cbn [bindR fst snd].
  rewrite Hlab. cbn [bindR].
  unfold within. rewrite !map_map.
  set (p := fun r : MasterRow =>
              Qlt_bool (snd (nearest separation (master_sc r) (sc c0) (map sc cs)))
                       matching_radius).
  rewrite map_getitem_mask, map_map.
  rewrite (loc_update_rows (set_present names name) (set_index names name) p
             (fun r => Z.of_nat (fst (nearest separation (master_sc r)
                                              (sc c0) (map sc cs))))).
  rewrite length_map.
  set (cat := extract_cat_params (c0 :: cs)).
  destruct master_cat as [|m ms].
  - cbn [List.length Nat.eqb bindR map app unmatched_rows].
    rewrite getitem_mask_combine, getitem_mask_all'.
    reflexivity.
  - cbn [List.length Nat.eqb].
    change (map master_sc (m :: ms)) with (master_sc m :: map master_sc ms).
    rewrite match_to_catalog_sky_cons. cbn [bindR fst snd].
    rewrite getitem_mask_combine. unfold within, unmatched_rows.
    rewrite !map_map.
    assert (Hmask : forall g : SkyCoord -> bool,
               map g (sc c0 :: map sc cs)
               = map (fun ci : ParamRow * nat => g (param_sc (fst ci)))
                     (combine cat (seq 0 (List.length cat)))).
    { intro g.
      rewrite <- (map_map fst (fun c => g (param_sc c))), map_fst_combine_seq.
      unfold cat. now rewrite <- (map_map param_sc g), param_sc_extract. }
    rewrite Hmask, getitem_mask_filter. reflexivity.
Qed.


Lemma write_column_nth {V : Type} (names : list string) (name : string)
  (v : V) (cells : list V) (j : nat) :
  nth_error (write_column names name v cells) j
  = match nth_error cells j with
    | None => None
    | Some x =>
        match nth_error names j with
        | Some n => Some (if String.eqb n name then v else x)
        | None => Some x
        end
    end.
Proof.
  revert cells j. induction names as [|n names IH]; intros [|x cells] j; simpl.
  - now destruct j.
  - destruct (nth_error (x :: cells) j); [|reflexivity]. now destruct j.
  - now destruct j.
  - destruct j as [|j]; simpl; [reflexivity | apply IH].
Qed.

Lemma new_row_cells (names : list string) (name : string) (c : ParamRow)
  (i j : nat) (subname : string) :
  nth_error names j = Some subname ->
  nth_error (mc_present (new_row names name (c, i))) j
  = Some (String.eqb subname name)
  /\ nth_error (mc_index (new_row names name (c, i))) j
     = Some (if String.eqb subname name then Z.of_nat i else (-1)%Z).
Proof.
  intro Hj. unfold new_row. cbn [mc_present mc_index fst snd].
  rewrite !nth_error_map, Hj. cbn [option_map].
  now destruct (String.eqb subname name).
Qed.

(** Against the empty master every row of the catalogue is appended. *)
Lemma fold_catalog_first (names : list string) (matching_radius : Q)
  (c0 : CatRow) (cs : Catalog) (name : string) :
  label_repeated names (name ++ "_idx") = false ->
  fold_catalog separation names matching_radius [] (c0 :: cs) name
  = inr (map (new_row names name)
             (combine (extract_cat_params (c0 :: cs))
                      (seq 0 (List.length (c0 :: cs))))).
Proof.
  intro Hlab. rewrite fold_catalog_run by exact Hlab.
  cbn [map app unmatched_rows].
  unfold extract_cat_params. now rewrite length_map.
Qed.

(** C1. When the first catalogue has at least one row, there are as many
    names as catalogues and no two columns of the master frame carry the
    same label ([ra], [dec], [healpix], the names and the names followed
    by [_idx] are all different), folding the first catalogue into the
    empty master gives one master row per row of the catalogue, in order;
    its own flag column is true with row numbers 0, 1, ..., and the
    columns of every other name hold false and -1. *)
Theorem first_catalog_fold (c0 : CatRow) (cs : Catalog) (cats : list Catalog)
  (name : string) (rest : list string) (matching_radius : Q) :
  List.length cats = List.length rest ->
  NoDup (columns (name :: rest)) ->
  first_fold_claim separation (c0 :: cs) cats name rest matching_radius.
Proof.
  intros Hlen Hcols. unfold first_fold_claim.
  pose proof (label_repeated_NoDup (name :: rest) (name ++ "_idx") Hcols)
    as Hlab.
  eexists. split; [now apply fold_catalog_first|]. split; [|split].
  - unfold build_master_catalog. cbn [List.length]. rewrite Hlen.
    cbn [Nat.eqb]. rewrite Nat.eqb_refl. cbn [negb combine fold_catalogs].
    now rewrite fold_catalog_first.
  - rewrite length_map, length_combine, length_seq.
    unfold extract_cat_params. rewrite length_map. apply Nat.min_id.
  - intros i row Hrow j subname Hj.
    rewrite nth_error_map in Hrow.
    destruct (nth_error (combine (extract_cat_params (c0 :: cs))
                                 (seq 0 (List.length (c0 :: cs)))) i)
      as [[c i']|] eqn:E; [|discriminate].
    injection Hrow as <-.
    assert (i' = i) as ->.
    { destruct (nth_error (extract_cat_params (c0 :: cs)) i) as [c'|] eqn:E'.
      - assert (Hl : List.length (c0 :: cs)
                     = List.length (extract_cat_params (c0 :: cs)))
          by (unfold extract_cat_params; now rewrite length_map).
        rewrite Hl in E.
        rewrite (nth_error_combine_seq _ 0 i c' E') in E.
        now injection E as _ <-.
      - apply nth_error_None in E'.
        assert (Hs : nth_error (combine (extract_cat_params (c0 :: cs))
                                        (seq 0 (List.length (c0 :: cs)))) i
                     <> None) by congruence.
        apply nth_error_Some in Hs. rewrite length_combine in Hs. lia. }
    now apply new_row_cells.
Qed.

Lemma fold_catalog_error (names : list string) (matching_radius : Q)
  (master_cat : list MasterRow) (cat : Catalog) (name : string)
  (e : Exception) :
  fold_catalog separation names matching_radius master_cat cat name = inl e ->
  e = ValueError.
Proof.
  destruct cat as [|c0 cs]; intro H.
  - rewrite fold_catalog_empty in H. now injection H as <-.
  - destruct (label_repeated names (name ++ "_idx")) eqn:Hlab.
    + rewrite fold_catalog_repeated in H by exact Hlab. now injection H as <-.
    + rewrite fold_catalog_run in H by exact Hlab. discriminate H.
Qed.

(** The loop body returns for a catalogue with a row, under a name whose
    index label one column carries, and only then. *)
Lemma fold_catalog_returns (names : list string) (matching_radius : Q)
  (master_cat : list MasterRow) (cat : Catalog) (name : string)
  (master_cat' : list MasterRow) :
  fold_catalog separation names matching_radius master_cat cat name
  = inr master_cat' ->
  cat <> [] /\ label_repeated names (name ++ "_idx") = false.
Proof.
  destruct cat as [|c0 cs]; intro H.
  - rewrite fold_catalog_empty in H. discriminate H.
  - split; [discriminate|].
    destruct (label_repeated names (name ++ "_idx")) eqn:Hlab; [|reflexivity].
    rewrite fold_catalog_repeated in H by exact Hlab. discriminate H.
Qed.


(** The loop stops with the error of the match at the first catalogue
    without rows, and runs to its end when there is none. *)
Lemma fold_catalogs_empty_member (names : list string) (matching_radius : Q)
  (todo : list (Catalog * string)) :
  forall master_cat,
    In [] (map fst todo) ->
    fold_catalogs separation names matching_radius master_cat todo
    = inl ValueError.
Proof.
  induction todo as [|[cat name] todo IH]; intros m Hin; [easy|].
  cbn [fold_catalogs].
  destruct (fold_catalog separation names matching_radius m cat name)
    as [e|m1] eqn:E.
  - apply fold_catalog_error in E as ->. reflexivity.
  - cbn [bindR]. apply IH. destruct Hin as [Hc|Hin]; [|assumption].
    cbn [fst] in Hc. subst cat. rewrite fold_catalog_empty in E. discriminate E.
Qed.


Lemma map_fst_combine_le {A B : Type} (a : list A) (b : list B) :
  List.length a = List.length b -> map fst (combine a b) = a.
Proof.
  revert b. induction a as [|x a IH]; intros [|y b] H; simpl in *;
    try reflexivity; try discriminate.
  rewrite IH; [reflexivity | now injection H].
Qed.

(** C2. The match refuses an empty catalogue, so [cross_match_datasets]
    fails on an empty right catalogue and [build_master_catalog] fails on
    an empty incoming catalogue; against a catalogue with at least one row
    the match goes through.  The one match whose catalogue is empty by
    construction, that of the first catalogue against the empty master, is
    not run: when no two columns of the master frame carry the same label,
    every row of the catalogue counts as unmatched and is appended. *)
Theorem empty_reference_refused :
  (forall self, match_to_catalog_sky separation self [] = inl ValueError)
  /\ (forall self c0 cs, exists idx sep2d,
         match_to_catalog_sky separation self (c0 :: cs) = inr (idx, sep2d)
         /\ List.length idx = List.length self
         /\ List.length sep2d = List.length self)
  /\ (forall (R : Type) cat_left matching_radius,
         @cross_match_datasets separation R cat_left [] matching_radius
         = ([], inl ValueError))
  /\ (forall names matching_radius master_cat name,
         fold_catalog separation names matching_radius master_cat [] name
         = inl ValueError)
  /\ (forall cats names matching_radius,
         In [] cats ->
         build_master_catalog separation cats names matching_radius
         = inl ValueError)
  /\ (forall names matching_radius c0 cs name,
         NoDup (columns names) ->
         fold_catalog separation names matching_radius [] (c0 :: cs) name
         = inr (map (new_row names name)
                    (combine (extract_cat_params (c0 :: cs))
                             (seq 0 (List.length (c0 :: cs)))))).
Proof.
  split; [reflexivity|].
  split; [|split; [reflexivity|split; [reflexivity|split]]].
  - intros self c0 cs. do 2 eexists.
    split; [apply match_to_catalog_sky_cons|]. now rewrite !length_map.
  - intros cats names matching_radius Hin. unfold build_master_catalog.
    destruct (Nat.eqb _ _) eqn:E; [|reflexivity].
    cbn [negb]. apply fold_catalogs_empty_member.
    apply Nat.eqb_eq in E. now rewrite map_fst_combine_le.
  - intros. apply fold_catalog_first. now apply label_repeated_NoDup.
Qed.



Lemma unmatched_rows_In (matching_radius : Q) (master_coords : list SkyCoord)
  (cat : list ParamRow) (c : ParamRow) (i : nat) :
  In (c, i) (unmatched_rows separation matching_radius master_coords cat) ->
  nth_error cat i = Some c.
Proof.
  unfold unmatched_rows. intro H.
  assert (Hin : In (c, i) (combine cat (seq 0 (List.length cat)))).
  { destruct master_coords; [assumption | now apply filter_In in H]. }
  apply In_combine_seq in Hin as [_ Hn]. now rewrite Nat.sub_0_r in Hn.
Qed.






Section SamePosition.

Hypothesis separation_self : forall p, separation p p == 0.
Hypothesis separation_nonneg : forall p q, 0 <= separation p q.

(** The nearest entry of a catalogue that holds the position itself is at
    separation zero. *)
Lemma nearest_of_present (q c0 : SkyCoord) (cs : list SkyCoord) :
  In q (c0 :: cs) -> snd (nearest separation q c0 cs) == 0.
Proof.
  intro Hin.
  destruct (nearest_spec separation q c0 cs) as (c & _ & Hs & Hmin & _).
  apply Qle_antisym.
  - rewrite <- (separation_self q). now apply Hmin.
  - rewrite Hs. apply separation_nonneg.
Qed.

(** The row number the match records for a master row is that of an
    object of the catalogue, none of which lies closer. *)
Lemma nearest_row (q : SkyCoord) (c0 : CatRow) (cs : Catalog) :
  exists o,
    nth_error (c0 :: cs) (fst (nearest separation q (sc c0) (map sc cs)))
    = Some o
    /\ snd (nearest separation q (sc c0) (map sc cs)) = separation q (sc o).
Proof.
  destruct (nearest_spec separation q (sc c0) (map sc cs))
    as (c & Hn & Hs & _).
  change (sc c0 :: map sc cs) with (map sc (c0 :: cs)) in Hn.
  rewrite nth_error_map in Hn.
  destruct (nth_error (c0 :: cs) (fst (nearest separation q (sc c0) (map sc cs))))
    as [o|]; [|discriminate].
  cbn [option_map] in Hn. injection Hn as <-. now exists o.
Qed.

(** C3. Folding a catalogue that has an object at the very position of
    an existing master row, with a positive radius and no two columns of
    the master frame under one label: no master row is appended for that
    object, and the master row is flagged for the catalogue with, as its
    index, the row number of an object of the catalogue at zero separation
    from the master row.  That is the row number of the object itself when
    no other object of the catalogue lies at zero separation from the
    master row. *)
Theorem same_position_fold (names : list string) (matching_radius : Q)
  (master_cat : list MasterRow) (cat : Catalog) (name : string)
  (i k : nat) (mrow : MasterRow) (o : CatRow) :
  NoDup (columns names) ->
  0 < matching_radius ->
  nth_error master_cat i = Some mrow ->
  nth_error cat k = Some o ->
  master_sc mrow = sc o ->
  (exists updated appended urow k' o',
      fold_catalog separation names matching_radius master_cat cat name
      = inr (updated ++ map (new_row names name) appended)
      /\ List.length updated = List.length master_cat
      /\ ~ In k (map snd appended)
      /\ nth_error updated i = Some urow
      /\ nth_error cat k' = Some o'
      /\ separation (master_sc mrow) (sc o') == 0
      /\ forall j,
           nth_error names j = Some name ->
           (j < List.length (mc_present mrow))%nat ->
           (j < List.length (mc_index mrow))%nat ->
           nth_error (mc_present urow) j = Some true
           /\ nth_error (mc_index urow) j = Some (Z.of_nat k'))
  /\ ((forall k' o', nth_error cat k' = Some o' ->
                     separation (master_sc mrow) (sc o') == 0 -> k' = k) ->
      same_position_claim separation names matching_radius master_cat cat
                          name i k).
Proof.
  intros Hcols Hrad Hm Ho Hpos.
  destruct cat as [|c0 cs]; [destruct k; discriminate|].
  pose proof (label_repeated_NoDup names (name ++ "_idx") Hcols) as Hlab.
  set (updated := map (mark_match separation names name matching_radius
                                  (sc c0) (map sc cs)) master_cat).
  set (appended := unmatched_rows separation matching_radius
                     (map master_sc master_cat)
                     (extract_cat_params (c0 :: cs))).
  set (n := nearest separation (master_sc mrow) (sc c0) (map sc cs)).
  assert (Hrun : fold_catalog separation names matching_radius master_cat
                              (c0 :: cs) name
                 = inr (updated ++ map (new_row names name) appended))
    by now apply fold_catalog_run.
  assert (Hnot : ~ In k (map snd appended)).
  { intro Hin. apply in_map_iff in Hin as ([c k'] & Hk & Hin).
    cbn [snd] in Hk. subst k'.
    pose proof (unmatched_rows_In _ _ _ _ _ Hin) as Hc.
    unfold extract_cat_params in Hc.
    rewrite (map_nth_error _ _ _ Ho) in Hc. injection Hc as <-.
    destruct master_cat as [|m ms]; [destruct i; discriminate|].
    unfold appended, unmatched_rows in Hin.
    change (map master_sc (m :: ms)) with (master_sc m :: map master_sc ms) in Hin.
    apply filter_In in Hin as [_ Hf]. cbn [fst] in Hf.
    apply negb_true_iff, Qlt_bool_false in Hf.
    assert (H0 : snd (nearest separation (sc o) (master_sc m)
                              (map master_sc ms)) == 0).
    { apply nearest_of_present. rewrite <- Hpos.
      change (master_sc m :: map master_sc ms) with (map master_sc (m :: ms)).
      apply in_map. eapply nth_error_In; eassumption. }
    change (param_sc {| p_ra := ra o; p_dec := dec o; p_healpix := healpix o |})
      with (sc o) in Hf.
    rewrite H0 in Hf. exact (Qlt_not_le _ _ Hrad Hf). }
  assert (H0 : snd n == 0).
  { apply nearest_of_present. rewrite Hpos.
    change (sc c0 :: map sc cs) with (map sc (c0 :: cs)).
    apply in_map. eapply nth_error_In; eassumption. }
  destruct (nearest_row (master_sc mrow) c0 cs) as (o' & Ho' & Hs). fold n in Ho', Hs.
  assert (Hsep : separation (master_sc mrow) (sc o') == 0) by now rewrite <- Hs.
  assert (Hcells : forall j,
             nth_error names j = Some name ->
             (j < List.length (mc_present mrow))%nat ->
             (j < List.length (mc_index mrow))%nat ->
             nth_error (mc_present (mark_match separation names name
                          matching_radius (sc c0) (map sc cs) mrow)) j
             = Some true
             /\ nth_error (mc_index (mark_match separation names name
                             matching_radius (sc c0) (map sc cs) mrow)) j
                = Some (Z.of_nat (fst n))).
  { intros j Hj Hlp Hli. unfold mark_match. cbv zeta. fold n.
    assert (Hlt : Qlt_bool (snd n) matching_radius = true).
    { apply Qlt_bool_iff. now rewrite H0. }
    rewrite Hlt.
    cbn [set_index set_present mc_present mc_index].
    rewrite !write_column_nth, Hj.
    apply nth_error_Some in Hlp. apply nth_error_Some in Hli.
    destruct (nth_error (mc_present mrow) j); [|congruence].
    destruct (nth_error (mc_index mrow) j); [|congruence].
    now rewrite String.eqb_refl. }
  split.
  - exists updated, appended,
      (mark_match separation names name matching_radius (sc c0) (map sc cs) mrow),
      (fst n), o'.
    split; [exact Hrun|]. split; [apply length_map|]. split; [exact Hnot|].
    split; [now apply map_nth_error|]. split; [exact Ho'|].
    split; [exact Hsep | exact Hcells].
  - intro Huniq. exists updated, appended.
    split; [exact Hrun|]. split; [apply length_map|]. split; [exact Hnot|].
    exists mrow,
      (mark_match separation names name matching_radius (sc c0) (map sc cs) mrow).
    split; [assumption|]. split; [now apply map_nth_error|].
    intros j Hj Hlp Hli.
    rewrite <- (Huniq (fst n) o' Ho' Hsep). now apply Hcells.
Qed.

End SamePosition.

End MasterFacts.

(** A run of the loop body that returned, on a catalogue with a row:
    rewrite it row by row. *)
Ltac fold_run H :=
  let Hlab := fresh "Hlab" in
  pose proof H as Hlab; apply fold_catalog_returns in Hlab;
  destruct Hlab as [_ Hlab];
  rewrite fold_catalog_run in H by exact Hlab.


(** ** Reading the catalogue *)

Section GetCatalogFacts.

Variable Column : Type.
Variable Table : Type.
Variable h5py_File : string -> Result (list (string * Column)).
Variable Table_ : list (string * Column) -> Result Table.
Variable vstack : list Table -> Result Table.

Local Abbreviation file_to_catalog := (_file_to_catalog Column Table h5py_File Table_).

(** The loop appends, to what it started from, the tables of the files
    that gave one, in the order of the files. *)
Lemma read_files_mapR (keys : list string) (files : list string) :
  forall catalogs,
    read_files Column Table h5py_File Table_ keys files catalogs
    = (rs <- mapR (fun f => file_to_catalog f keys) files ;;
       inr (catalogs ++ not_None rs))%result.
Proof.
  induction files as [|f files IH]; intro catalogs; simpl.
  - now rewrite app_nil_r.
  - destruct (file_to_catalog f keys) as [e|[c|]]; simpl; [reflexivity| |].
    + rewrite IH.
      destruct (mapR (fun f0 => file_to_catalog f0 keys) files); simpl;
        [reflexivity|].
      now rewrite <- app_assoc.
    + rewrite IH.
      now destruct (mapR (fun f0 => file_to_catalog f0 keys) files).
Qed.

(** C10. [get_catalog] with several processes returns no table for a
    split that has a file: handing [_file_to_catalog] to the pool ends in
    [AttributeError] before any file is read.  With one process the same
    call reads the files of the split in list order, leaves out the files
    that gave [None], and stacks the tables. *)
Theorem get_catalog_pool_refused (dset : DatasetBuilder) (keys : list string)
  (split : string) (num_proc : Z) (f : string) (files : list string) :
  (1 < num_proc)%Z ->
  lookup (data_files dset) split = inr (f :: files) ->
  get_catalog Column Table h5py_File Table_ vstack dset keys split num_proc
  = inl AttributeError
  /\ forall rs,
       mapR (fun f => file_to_catalog f keys) (f :: files) = inr rs ->
       get_catalog Column Table h5py_File Table_ vstack dset keys split 1
       = vstack (not_None rs).
Proof.
  intros Hn Hl. unfold get_catalog.
  apply Z.ltb_lt in Hn. rewrite Hn.
  change (1 <? 1)%Z with false. cbv iota.
  destruct (data_files dset) as [|d ds] eqn:Ed; [discriminate Hl|].
  rewrite Hl. cbn [bindR pool_map raise]. split; [reflexivity|].
  intros rs Hm. rewrite read_files_mapR, Hm. reflexivity.
Qed.

End GetCatalogFacts.

(** ** The generator *)

Section GeneratorFacts.

Variable V : Type.
Variables left_name right_name : string.

Local Abbreviation loop := (merge_loop V left_name right_name).
Local Abbreviation merged := (merge_examples V left_name right_name).

Lemma merge_loop_misaligned (group : list MatchedRow) (i counter : nat)
  (row : MatchedRow) (left_id right_id : string)
  (example_left example_right : Example V)
  (rest : list ((string * Example V) * (string * Example V))) :
  nth_error group i = Some row ->
  aligned row left_id right_id = false ->
  loop group i counter
       (((left_id, example_left), (right_id, example_right)) :: rest)
  = loop group (S i) (S counter) rest.
Proof.
  intros Hrow Hal. cbn [merge_loop]. unfold getitem. rewrite Hrow.
  now rewrite bindM_lift_inr, Hal.
Qed.

Lemma merge_loop_aligned (group : list MatchedRow) (i counter : nat)
  (row : MatchedRow) (left_id right_id : string)
  (example_left example_right : Example V)
  (rest : list ((string * Example V) * (string * Example V))) :
  nth_error group i = Some row ->
  aligned row left_id right_id = true ->
  loop group i counter
       (((left_id, example_left), (right_id, example_right)) :: rest)
  = ((if (counter =? 0)%nat then [] else [GenerationErrors counter])
       ++ Yield (merged example_left example_right)
       :: fst (loop group (S i) 0 rest),
     snd (loop group (S i) 0 rest)).
Proof.
  intros Hrow Hal. cbn [merge_loop]. unfold getitem. rewrite Hrow.
  rewrite bindM_lift_inr, Hal.
  destruct (counter =? 0)%nat; cbn [negb].
  - now rewrite bindM_retM, bindM_emit.
  - now rewrite !bindM_emit.
Qed.

Lemma merge_loop_skips_run (group : list MatchedRow)
  (bad rest : list ((string * Example V) * (string * Example V))) :
  forall i counter,
    misaligned_run group i bad ->
    loop group i counter (bad ++ rest)
    = loop group (i + List.length bad) (counter + List.length bad) rest.
Proof.
  induction bad as [|[[lid el] [rid er]] bad IH]; intros i counter Hbad.
  - simpl. now rewrite !Nat.add_0_r.
  - destruct (Hbad 0%nat _ eq_refl) as (row & Hrow & Hal).
    rewrite Nat.add_0_r in Hrow. cbn [fst snd] in Hal.
    rewrite <- app_comm_cons.
    rewrite (merge_loop_misaligned group i counter row lid rid el er _ Hrow Hal).
    rewrite IH.
    + cbn [List.length]. f_equal; lia.
    + intros t pair Ht. destruct (Hbad (S t) pair Ht) as (row' & Hr' & Ha').
      exists row'. split; [|assumption].
      now replace (S i + t)%nat with (i + S t)%nat by lia.
Qed.

(** C8. In the merge of one group, a pair whose ids fail the check on
    either side yields nothing and adds one to the counter, and the loop
    goes on with the next pair; the next pair that passes prints the
    count, if there is one, yields its merged record, and the loop goes on
    with the counter at zero. *)
Theorem misaligned_pairs_skipped (group : list MatchedRow) (i counter : nat)
  (bad : list ((string * Example V) * (string * Example V)))
  (row : MatchedRow) (left_id right_id : string)
  (example_left example_right : Example V)
  (rest : list ((string * Example V) * (string * Example V))) :
  misaligned_run group i bad ->
  nth_error group (i + List.length bad) = Some row ->
  aligned row left_id right_id = true ->
  let n := (counter + List.length bad)%nat in
  let next := loop group (S (i + List.length bad)) 0 rest in
  loop group i counter
       (bad ++ ((left_id, example_left), (right_id, example_right)) :: rest)
  = ((if (n =? 0)%nat then [] else [GenerationErrors n])
       ++ Yield (merged example_left example_right) :: fst next,
     snd next)
  /\ (forall rest', loop group i counter (bad ++ rest')
                    = loop group (i + List.length bad) n rest')
  /\ (forall row' lid rid,
         aligned row' lid rid = false
         <-> contains (object_id (left_row row')) lid = false
             \/ contains (object_id (right_row row')) rid = false).
Proof.
  intros Hbad Hrow Hal n next. split; [|split].
  - rewrite (merge_loop_skips_run group bad _ i counter Hbad).
    now apply merge_loop_aligned with (row := row).
  - intro rest'. now apply merge_loop_skips_run.
  - intros row' lid rid. unfold aligned. apply andb_false_iff.
Qed.

End GeneratorFacts.


(** * The statements on sample data *)

Lemma flat_separation_self (p : SkyCoord) : flat_separation p p == 0.
Proof.
  unfold flat_separation.
  assert (H1 : fst p - fst p == 0) by ring.
  assert (H2 : snd p - snd p == 0) by ring.
  rewrite H1, H2. reflexivity.
Qed.

Lemma flat_separation_nonneg (p q : SkyCoord) : 0 <= flat_separation p q.
Proof.
  unfold flat_separation. apply Qmult_le_0_compat; [discriminate|].
  replace 0 with (0 + 0) by reflexivity.
  apply Qplus_le_compat; apply Qabs_nonneg.
Qed.

Lemma columns_AB : NoDup (columns ["A"; "B"]).
Proof.
  unfold columns. cbn [map app].
  repeat constructor; cbn [In]; intuition discriminate.
Qed.

Lemma first_catalog_fold_witness :
  first_fold_claim flat_separation catA [catB] "A" ["B"] 1.
Proof.
  apply (first_catalog_fold flat_separation (obj "a0" 10 1)
           [obj "a1" 20 2; obj "a2" 30 3] [catB] "A" ["B"] 1).
  - reflexivity.
  - exact columns_AB.
Defined.

(** C1, as stated, fails for a first catalogue without rows: the fold ends
    in the [ValueError] of the match.  It also fails for a first catalogue
    whose name comes twice in the list of names: the fold ends in the
    [ValueError] of the assignment of the row numbers. *)
Lemma first_catalog_fold_counterexample :
  ~ first_fold_claim flat_separation [] [] "A" [] 1
  /\ ~ first_fold_claim flat_separation catA [catB] "A" ["A"] 1
  /\ build_master_catalog flat_separation [catA; catB] ["A"; "A"] 1
     = inl ValueError.
Proof.
  split; [|split].
  - intros (master1 & Hrun & _). discriminate Hrun.
  - intros (master1 & Hrun & _). vm_compute in Hrun. discriminate Hrun.
  - vm_compute. reflexivity.
Qed.

(** C2, as stated, fails: the match against an empty catalogue does not
    go through, and both callers end in its [ValueError]. *)
Lemma empty_reference_counterexample :
  ~ empty_reference_claim flat_separation [(10, 0)]
  /\ @cross_match_datasets flat_separation unit catA [] 1
     = ([], inl ValueError)
  /\ build_master_catalog flat_separation [catA; []] ["A"; "B"] 1
     = inl ValueError.
Proof.
  split; [|split; reflexivity].
  intros (idx & sep2d & Hrun & _). discriminate Hrun.
Qed.

Lemma same_position_fold_witness :
  same_position_claim flat_separation ["A"; "B"] 1 masterA catB1 "B" 1 1.
Proof.
  apply (proj2 (same_position_fold flat_separation flat_separation_self
                  flat_separation_nonneg ["A"; "B"] 1 masterA catB1 "B" 1 1
                  (new_row ["A"; "B"] "A"
                     ({| p_ra := 20; p_dec := 0; p_healpix := 2 |}, 1%nat))
                  (obj "b1" 20 2) columns_AB eq_refl eq_refl eq_refl eq_refl)).
  intros [|[|k']] o' Ho Hz.
  - injection Ho as <-. vm_compute in Hz. discriminate Hz.
  - reflexivity.
  - destruct k'; discriminate Ho.
Defined.

(** C3, as stated, fails for a catalogue with two objects at the position
    of a master row: rows 1 and 2 of [catB] both lie at the position of
    master row 1, which records one row number and so cannot hold the row
    number of both. *)
Lemma same_position_fold_counterexample :
  (exists mrow o1 o2,
      nth_error masterA 1 = Some mrow
      /\ nth_error catB 1 = Some o1 /\ master_sc mrow = sc o1
      /\ nth_error catB 2 = Some o2 /\ master_sc mrow = sc o2)
  /\ ~ (same_position_claim flat_separation ["A"; "B"] 1 masterA catB "B" 1 1
        /\ same_position_claim flat_separation ["A"; "B"] 1 masterA catB "B"
                               1 2).
Proof.
  split.
  - do 3 eexists. repeat split; reflexivity.
  - intros [_ (updated & appended & Hrun & Hlen & _ & mrow & urow & Hm & Hu & Hj)].
    injection Hm as <-.
    specialize (Hj 1%nat eq_refl).
    destruct Hj as [_ Hidx]; [cbn; lia | cbn; lia |].
    assert (Hu' : nth_error (updated ++ map (new_row ["A"; "B"] "B") appended) 1
                  = Some urow).
    { rewrite nth_error_app1; [assumption|]. rewrite Hlen. cbn. lia. }
    remember (updated ++ map (new_row ["A"; "B"] "B") appended) as rows.
    vm_compute in Hrun. injection Hrun as Hrun. rewrite <- Hrun in Hu'.
    cbn [nth_error] in Hu'. injection Hu' as <-.
    vm_compute in Hidx. discriminate Hidx.
Qed.

Lemma table_rows_ids_and_keys_witness :
  exists events table row,
    @cross_match_datasets flat_separation unit catA catB 1
    = (events, inr table)
    /\ In row table
    /\ (In (left_row row) catA
        /\ In (right_row row) catB
        /\ m_object_id row = object_id (left_row row)
        /\ m_healpix row = healpix (left_row row)
        /\ m_healpix row = healpix (right_row row)).
Proof.
  exists [InitialMatches 1; LostAtBorders 0; FinalSize 1],
         [default_columns (obj "a1" 20 2, obj "b1" 20 2)],
         (default_columns (obj "a1" 20 2, obj "b1" 20 2)).
  split; [reflexivity|]. split; [now left|].
  apply (table_rows_ids_and_keys flat_separation unit catA catB 1
           [InitialMatches 1; LostAtBorders 0; FinalSize 1]
           [default_columns (obj "a1" 20 2, obj "b1" 20 2)]).
  - reflexivity.
  - now left.
Defined.

Lemma identical_catalogs_match_witness :
  identical_match_claim flat_separation unit catA 1.
Proof.
  apply (identical_catalogs_match flat_separation unit flat_separation_self
           flat_separation_nonneg (obj "a0" 10 1)
           [obj "a1" 20 2; obj "a2" 30 3] 1).
  - reflexivity.
  - intros a b Ha Hb Hz.
    destruct Ha as [<-|[<-|[<-|[]]]]; destruct Hb as [<-|[<-|[<-|[]]]];
      try (vm_compute in Hz; discriminate Hz);
      repeat split; reflexivity.
Defined.

(** C6, as stated, fails for a catalogue with two objects at one position
    and different partition keys (one of the two pairs is lost), and for
    the catalogue without rows (nothing is returned). *)
Lemma identical_catalogs_match_counterexample :
  ~ identical_match_claim flat_separation unit catD 1
  /\ ~ identical_match_claim flat_separation unit [] 1.
Proof.
  split; intros (table & Hrun & _); vm_compute in Hrun; discriminate Hrun.
Qed.

Lemma misaligned_pairs_skipped_witness :
  merge_loop Z "L" "R" sample_group 0 0
    (sample_bad ++ (("left:a3", [("flux", 3%Z)]), ("right:b3", [("mag", 4%Z)]))
                :: [])
  = ([GenerationErrors 1;
      Yield (merge_examples Z "L" "R" [("flux", 3%Z)] [("mag", 4%Z)])],
     inr 0%nat).
Proof.
  apply (misaligned_pairs_skipped Z "L" "R" sample_group 0 0 sample_bad
           (default_columns (obj "a3" 21 2, obj "b3" 21 2))
           "left:a3" "right:b3" [("flux", 3%Z)] [("mag", 4%Z)] []).
  - intros [|t] pair Ht.
    + injection Ht as <-. eexists. split; reflexivity.
    + destruct t; discriminate Ht.
  - reflexivity.
  - reflexivity.
Defined.


Lemma get_catalog_pool_refused_witness :
  get_catalog (list Z) (list (string * list Z)) sample_h5 sample_Table
              sample_vstack sample_builder ["object_id"; "ra"] "train" 4
  = inl AttributeError
  /\ get_catalog (list Z) (list (string * list Z)) sample_h5 sample_Table
                 sample_vstack sample_builder ["object_id"; "ra"] "train" 1
     = inr [("object_id", [1; 2]%Z); ("ra", [10; 20]%Z);
            ("object_id", [3]%Z); ("ra", [30]%Z)].
Proof.
  split.
  - apply (proj1 (get_catalog_pool_refused (list Z) (list (string * list Z))
                    sample_h5 sample_Table sample_vstack sample_builder
                    ["object_id"; "ra"] "train" 4 "healpix=1/a.hdf5"
                    ["healpix=2/a.hdf5"; "healpix=3/a.hdf5"]
                    eq_refl eq_refl)).
  - reflexivity.
Defined.


(** * Further properties *)

(** ** Reading the catalogue: files that fail *)

Lemma mapR_ext {A B : Type} (f g : A -> Result B) (l : list A) :
  (forall x, In x l -> f x = g x) -> mapR f l = mapR g l.
Proof.
  induction l as [|x l IH]; intro H; simpl; [reflexivity|].
  rewrite (H x (or_introl eq_refl)), IH; [reflexivity|].
  intros y Hy. apply H. now right.
Qed.


Lemma lookup_mem {V : Type} (d : list (string * V)) (k : string) :
  mem k (map fst d) = true <-> exists v, lookup d k = inr v.
Proof.
  induction d as [|[k' v'] d IH]; simpl.
  - split; [discriminate | intros [v H]; discriminate].
  - rewrite String.eqb_sym. destruct (String.eqb k' k); simpl.
    + split; [intros _; now exists v' | reflexivity].
    + exact IH.
Qed.

Section ReadingFacts.

Variable Column : Type.
Variable Table : Type.
Variable Table_ : list (string * Column) -> Result Table.
Variable vstack : list Table -> Result Table.

Section OneFileSystem.

Variable h5py_File : string -> Result (list (string * Column)).

Local Abbreviation file_to_catalog := (_file_to_catalog Column Table h5py_File Table_).
Local Abbreviation catalog_of := (get_catalog Column Table h5py_File Table_ vstack).

Lemma unreadable_gives_None (filename : string) (keys : list string) :
  readable h5py_File filename = false ->
  file_to_catalog filename keys = inr None.
Proof.
  unfold readable, _file_to_catalog, file_to_catalog_body.
  destruct (h5py_File filename) as [[]|]; try discriminate. reflexivity.
Qed.

Lemma tables_of_readable (keys : list string) (files : list string) :
  (rs <- mapR (fun f => file_to_catalog f keys) files ;;
   inr (not_None rs))%result
  = (rs <- mapR (fun f => file_to_catalog f keys)
               (filter (readable h5py_File) files) ;;
     inr (not_None rs))%result.
Proof.
  induction files as [|f files IH]; [reflexivity|]. cbn [filter].
  destruct (readable h5py_File f) eqn:E.
  - cbn [mapR]. destruct (file_to_catalog f keys) as [e|c]; [reflexivity|].
    cbn [bindR].
    destruct (mapR (fun f0 => file_to_catalog f0 keys) files) as [e|rs];
      destruct (mapR (fun f0 => file_to_catalog f0 keys)
                     (filter (readable h5py_File) files)) as [e'|rs'];
      cbn [bindR] in *; try discriminate; try congruence.
    injection IH as IH. destruct c; cbn [not_None]; now rewrite IH.
  - cbn [mapR]. rewrite (unreadable_gives_None f keys E). cbn [bindR].
    rewrite <- IH.
    now destruct (mapR (fun f0 => file_to_catalog f0 keys) files).
Qed.

(** X1. Read by one process ([num_proc] at most 1), the files of the
    split that cannot be opened contribute nothing: the catalogue is the
    one read from the files that open. *)
Theorem get_catalog_skips_unreadable (dset dset' : DatasetBuilder)
  (keys : list string) (split : string) (num_proc : Z) (files : list string) :
  (num_proc <= 1)%Z ->
  lookup (data_files dset) split = inr files ->
  lookup (data_files dset') split = inr (filter (readable h5py_File) files) ->
  catalog_of dset keys split num_proc = catalog_of dset' keys split num_proc.
Proof.
  intros Hn Hl Hl'. unfold get_catalog.
  destruct (data_files dset) as [|d ds] eqn:Ed; [discriminate Hl|].
  destruct (data_files dset') as [|d' ds'] eqn:Ed'; [discriminate Hl'|].
  rewrite Hl, Hl'.
  destruct (1 <? num_proc)%Z eqn:En; cbn [bindR].
  - apply Z.ltb_lt in En. lia.
  - rewrite !read_files_mapR. cbn [app].
    pose proof (tables_of_readable keys files) as H.
    destruct (mapR (fun f => file_to_catalog f keys) files) as [e|rs];
      destruct (mapR (fun f => file_to_catalog f keys)
                     (filter (readable h5py_File) files)) as [e'|rs'];
      cbn [bindR] in *; congruence.
Qed.


End OneFileSystem.

(** X3. A file that stores its ids under [source_id] only reads, for every
    list of keys, like the same file with that column also stored under
    [object_id]. *)
Theorem source_id_stands_for_object_id
  (h5py_File h5py_File' : string -> Result (list (string * Column)))
  (filename : string) (keys : list string) (data : list (string * Column))
  (ids : Column) :
  h5py_File filename = inr data ->
  mem "object_id" (map fst data) = false ->
  lookup data "source_id" = inr ids ->
  h5py_File' filename = inr (("object_id", ids) :: data) ->
  _file_to_catalog Column Table h5py_File Table_ filename keys
  = _file_to_catalog Column Table h5py_File' Table_ filename keys.
Proof.
  intros Hd Ho Hs Hd'. unfold _file_to_catalog, file_to_catalog_body.
  rewrite Hd, Hd'. cbn [bindR]. f_equal.
  assert (Hsm : mem "source_id" (map fst data) = true)
    by (apply lookup_mem; now exists ids).
  assert (Hcols :
            mapR (fun k => (v <- (if String.eqb k "object_id"
                                  then lookup data "source_id"
                                  else lookup data k) ;;
                            inr (k, v))%result) keys
            = mapR (fun k => (v <- lookup (("object_id", ids) :: data) k ;;
                              inr (k, v))%result) keys).
  { apply mapR_ext. intros k _. cbn [lookup].
    rewrite (String.eqb_sym "object_id" k).
    destruct (String.eqb k "object_id"); [now rewrite Hs | reflexivity]. }
  assert (Hother :
            mem "object_id" keys = false ->
            mapR (fun k => (v <- lookup data k ;; inr (k, v))%result) keys
            = mapR (fun k => (v <- lookup (("object_id", ids) :: data) k ;;
                              inr (k, v))%result) keys).
  { intro Hno. apply mapR_ext. intros k Hk. cbn [lookup].
    destruct (String.eqb "object_id" k) eqn:E; [|reflexivity].
    apply String.eqb_eq in E. subst k.
    unfold mem in Hno. assert (Hex : existsb (String.eqb "object_id") keys = true).
    { apply existsb_exists. exists "object_id". split; [assumption|].
      apply String.eqb_refl. }
    congruence. }
  destruct (mem "object_id" keys) eqn:Hk.
  - rewrite Ho, Hsm. cbn [map fst mem existsb String.eqb Ascii.eqb Bool.eqb orb].
    now rewrite Hcols.
  - now rewrite Hother.
Qed.

End ReadingFacts.

(** ** The cross-matched catalogue: sizes *)

Lemma filter_map_swap {A B : Type} (g : A -> B) (q : B -> bool) (l : list A) :
  filter q (map g l) = map g (filter (fun x => q (g x)) l).
Proof.
  induction l as [|x l IH]; simpl; [reflexivity|].
  destruct (q (g x)); simpl; now rewrite IH.
Qed.

Lemma filter_filter {A : Type} (p q : A -> bool) (l : list A) :
  filter q (filter p l) = filter (fun x => p x && q x) l.
Proof.
  induction l as [|x l IH]; simpl; [reflexivity|].
  destruct (p x); simpl; [destruct (q x)|]; now rewrite IH.
Qed.

Lemma filter_length_le {A : Type} (p : A -> bool) (l : list A) :
  (List.length (filter p l) <= List.length l)%nat.
Proof.
  induction l as [|x l IH]; simpl; [lia|]. destruct (p x); simpl; lia.
Qed.

Lemma filter_none {A : Type} (p : A -> bool) (l : list A) :
  (forall x, In x l -> p x = false) -> filter p l = [].
Proof.
  induction l as [|x l IH]; intro H; simpl; [reflexivity|].
  rewrite (H x (or_introl eq_refl)). apply IH.
  intros y Hy. apply H. now right.
Qed.

Section CrossMatchSizes.

Variable separation : SkyCoord -> SkyCoord -> Q.
Variable R : Type.

(** X4. When no object of the left catalogue has an object of the right
    catalogue closer than the radius, the cross-match table is empty and
    the three counts printed are 0. *)
Theorem no_pair_within_radius (cat_left : Catalog) (r0 : CatRow)
  (rs : Catalog) (matching_radius : Q) :
  (forall l r, In l cat_left -> In r (r0 :: rs) ->
               matching_radius <= separation (sc l) (sc r)) ->
  @cross_match_datasets separation R cat_left (r0 :: rs) matching_radius
  = ([InitialMatches 0; LostAtBorders 0; FinalSize 0], inr []).
Proof.
  intro Hfar. rewrite cross_match_datasets_run.
  assert (Hclose : close_pairs separation r0 rs matching_radius cat_left = []).
  { unfold close_pairs.
    rewrite filter_none; [reflexivity|].
    intros l Hl. apply Qlt_bool_false.
    destruct (neighbour_is_nearest separation r0 rs l) as (c & Hn & Hs & _).
    apply nth_error_In, in_map_iff in Hn as (r & <- & Hr).
    rewrite Hs. now apply Hfar. }
  rewrite Hclose. reflexivity.
Qed.

(** X5. Whenever a table is returned, the three counts printed are the
    number of close pairs, the number of them dropped and the number of
    rows of the table; none is negative, the first is the sum of the other
    two and is at most the size of the left catalogue.  Every row of the
    left catalogue is used at most once: the left sides of the table are a
    selection of the rows of the left catalogue, up to the order. *)
Theorem cross_match_counts (cat_left cat_right : Catalog)
  (matching_radius : Q) (events : list (Event R)) (table : list MatchedRow) :
  @cross_match_datasets separation R cat_left cat_right matching_radius
  = (events, inr table) ->
  exists initial lost,
    events = [InitialMatches initial; LostAtBorders lost;
              FinalSize (List.length table)]
    /\ (0 <= lost)%Z
    /\ Z.of_nat initial = (lost + Z.of_nat (List.length table))%Z
    /\ (initial <= List.length cat_left)%nat
    /\ exists selected : CatRow -> bool,
         Permutation (map left_row table) (filter selected cat_left).
Proof.
  intro Hrun. destruct cat_right as [|r0 rs]; [discriminate Hrun|].
  rewrite cross_match_datasets_run in Hrun.
  set (close := close_pairs separation r0 rs matching_radius cat_left) in *.
  set (kept := filter same_healpix close) in *.
  injection Hrun as <- <-.
  assert (Hlen : List.length (group_by_healpix (map default_columns kept))
                 = List.length kept).
  { rewrite (Permutation_length (group_by_healpix_perm _)). apply length_map. }
  exists (List.length close),
         (Z.of_nat (List.length close) - Z.of_nat (List.length kept))%Z.
  rewrite Hlen.
  pose proof (filter_length_le same_healpix close) as Hle. fold kept in Hle.
  split; [reflexivity|]. split; [lia|]. split; [lia|]. split.
  - unfold close, close_pairs. rewrite length_map. apply filter_length_le.
  - exists (fun l =>
              Qlt_bool (snd (neighbour separation r0 rs l)) matching_radius
              && same_healpix (pair_with_neighbour separation r0 rs l)).
    eapply perm_trans; [apply Permutation_map, group_by_healpix_perm|].
    rewrite map_map. cbn [default_columns left_row].
    unfold kept, close, close_pairs.
    rewrite filter_map_swap, map_map, filter_filter.
    cbn [pair_with_neighbour fst]. rewrite map_id. apply Permutation_refl.
Qed.

End CrossMatchSizes.

(** ** The master catalogue: what a fold keeps and what it adds *)

Lemma inr_inj {A B : Type} (x y : B) : @inr A B x = inr y -> x = y.
Proof. intro H. now injection H. Qed.

Section MasterGrowth.

Variable separation : SkyCoord -> SkyCoord -> Q.

Lemma unmatched_rows_length (matching_radius : Q)
  (master_coords : list SkyCoord) (cat : list ParamRow) :
  (List.length (unmatched_rows separation matching_radius master_coords cat)
   <= List.length cat)%nat.
Proof.
  assert (Hc : List.length (combine cat (seq 0 (List.length cat)))
               = List.length cat)
    by (rewrite length_combine, length_seq; apply Nat.min_id).
  unfold unmatched_rows. destruct master_coords; [lia|].
  rewrite <- Hc at 2. apply filter_length_le.
Qed.

Lemma mark_match_position (names : list string) (name : string)
  (matching_radius : Q) (c0 : SkyCoord) (cs : list SkyCoord) (row : MasterRow) :
  let row' := mark_match separation names name matching_radius c0 cs row in
  mc_ra row' = mc_ra row /\ mc_dec row' = mc_dec row
  /\ mc_healpix row' = mc_healpix row.
Proof.
  unfold mark_match. cbv zeta.
  destruct (Qlt_bool _ matching_radius); repeat split; reflexivity.
Qed.

Lemma mark_match_sc (names : list string) (name : string)
  (matching_radius : Q) (c0 : SkyCoord) (cs : list SkyCoord) (row : MasterRow) :
  master_sc (mark_match separation names name matching_radius c0 cs row)
  = master_sc row.
Proof.
  unfold mark_match. cbv zeta.
  now destruct (Qlt_bool _ matching_radius).
Qed.

Lemma mark_match_other_names (names : list string) (name : string)
  (matching_radius : Q) (c0 : SkyCoord) (cs : list SkyCoord) (row : MasterRow)
  (j : nat) (subname : string) :
  nth_error names j = Some subname ->
  subname <> name ->
  let row' := mark_match separation names name matching_radius c0 cs row in
  nth_error (mc_present row') j = nth_error (mc_present row) j
  /\ nth_error (mc_index row') j = nth_error (mc_index row) j.
Proof.
  intros Hj Hne. unfold mark_match. cbv zeta.
  destruct (Qlt_bool _ matching_radius); [|now split].
  cbn [set_index set_present mc_present mc_index].
  rewrite !write_column_nth, Hj.
  apply String.eqb_neq in Hne. rewrite Hne.
  split; [now destruct (nth_error (mc_present row) j)
         | now destruct (nth_error (mc_index row) j)].
Qed.

Lemma mark_match_keeps_true (names : list string) (name : string)
  (matching_radius : Q) (c0 : SkyCoord) (cs : list SkyCoord) (row : MasterRow)
  (j : nat) :
  nth_error (mc_present row) j = Some true ->
  nth_error
    (mc_present (mark_match separation names name matching_radius c0 cs row)) j
  = Some true.
Proof.
  intro Hj. unfold mark_match. cbv zeta.
  destruct (Qlt_bool _ matching_radius); [|assumption].
  cbn [set_index set_present mc_present].
  rewrite write_column_nth, Hj.
  destruct (nth_error names j) as [n|]; [|reflexivity].
  now destruct (String.eqb n name).
Qed.

(** What a fold leaves of the rows that were there. *)
Lemma fold_catalog_keeps (names : list string) (matching_radius : Q)
  (master_cat master_cat' : list MasterRow) (cat : Catalog) (name : string) :
  fold_catalog separation names matching_radius master_cat cat name
  = inr master_cat' ->
  (List.length master_cat <= List.length master_cat'
   <= List.length master_cat + List.length cat)%nat
  /\ forall i row,
       nth_error master_cat i = Some row ->
       exists row',
         nth_error master_cat' i = Some row'
         /\ mc_ra row' = mc_ra row
         /\ mc_dec row' = mc_dec row
         /\ mc_healpix row' = mc_healpix row
         /\ (forall j subname,
                nth_error names j = Some subname -> subname <> name ->
                nth_error (mc_present row') j = nth_error (mc_present row) j
                /\ nth_error (mc_index row') j = nth_error (mc_index row) j)
         /\ (forall j,
                nth_error (mc_present row) j = Some true ->
                nth_error (mc_present row') j = Some true).
Proof.
  intro Hrun. destruct cat as [|c0 cs]; [discriminate Hrun|].
  fold_run Hrun. apply inr_inj in Hrun. subst master_cat'. split.
  - rewrite length_app, !length_map.
    pose proof (unmatched_rows_length matching_radius
                  (map master_sc master_cat) (extract_cat_params (c0 :: cs)))
      as Hu.
    unfold extract_cat_params in Hu at 2. rewrite length_map in Hu. lia.
  - intros i row Hi.
    exists (mark_match separation names name matching_radius
                       (sc c0) (map sc cs) row).
    split.
    { rewrite nth_error_app1
        by (rewrite length_map; eapply nth_error_Some_lt; eassumption).
      now apply map_nth_error. }
    destruct (mark_match_position names name matching_radius (sc c0)
                                  (map sc cs) row) as (H1 & H2 & H3).
    repeat split; try assumption.
    + now apply mark_match_other_names with (subname := subname).
    + now apply mark_match_other_names with (subname := subname).
    + intros j Hj. now apply mark_match_keeps_true.
Qed.


Lemma skipn_map_app {A B : Type} (f : A -> B) (l : list A) (l' : list B) :
  skipn (List.length l) (map f l ++ l') = l'.
Proof.
  rewrite <- (length_map f l). rewrite skipn_app, skipn_all, Nat.sub_diag.
  reflexivity.
Qed.

Lemma float64_int_exact (z : Z) :
  (Z.abs z <= 2 ^ 53)%Z -> float64_int z = z.
Proof.
  intro H. unfold float64_int. apply Z.leb_le in H. now rewrite H.
Qed.

(** Above [2^53] odd integers are lost: [2^53 + 1] comes back as
    [2^53], and [2^53 + 3] as [2^53 + 4]. *)
Lemma float64_int_rounds :
  float64_int (2 ^ 53 + 1) = (2 ^ 53)%Z
  /\ float64_int (2 ^ 53 + 3) = (2 ^ 53 + 4)%Z
  /\ float64_int (- (2 ^ 53 + 1)) = (- 2 ^ 53)%Z.
Proof. repeat split; vm_compute; reflexivity. Qed.

(** Where a fold leaves each object of the catalogue. *)
Lemma fold_catalog_covers (names : list string) (matching_radius : Q)
  (master_cat master_cat' : list MasterRow) (cat : Catalog) (name : string)
  (k : nat) (o : CatRow) :
  fold_catalog separation names matching_radius master_cat cat name
  = inr master_cat' ->
  nth_error cat k = Some o ->
  (exists row,
      In row (skipn (List.length master_cat) master_cat')
      /\ master_sc row = sc o
      /\ ((Z.abs (healpix o) <= 2 ^ 53)%Z -> mc_healpix row = healpix o)
      /\ ((Z.abs (healpix o) < 2 ^ 62)%Z ->
          mc_healpix row = float64_int (healpix o))
      /\ forall j, nth_error names j = Some name ->
                   nth_error (mc_present row) j = Some true
                   /\ nth_error (mc_index row) j = Some (Z.of_nat k))
  \/ (exists m, In m master_cat
                /\ separation (sc o) (master_sc m) < matching_radius).
Proof.
  intros Hrun Ho. destruct cat as [|c0 cs]; [discriminate Hrun|].
  fold_run Hrun. apply inr_inj in Hrun. subst master_cat'.
  rewrite skipn_map_app.
  set (c := {| p_ra := ra o; p_dec := dec o; p_healpix := healpix o |}).
  assert (Hc : nth_error (extract_cat_params (c0 :: cs)) k = Some c).
  { unfold extract_cat_params.
    exact (map_nth_error
             (fun r => {| p_ra := ra r; p_dec := dec r;
                          p_healpix := healpix r |}) k (c0 :: cs) Ho). }
  assert (Hin : In (c, k) (combine (extract_cat_params (c0 :: cs))
                                   (seq 0 (List.length
                                             (extract_cat_params (c0 :: cs)))))).
  { eapply nth_error_In. now apply (nth_error_combine_seq _ 0 k c). }
  assert (Hnew : forall j, nth_error names j = Some name ->
                   nth_error (mc_present (new_row names name (c, k))) j
                   = Some true
                   /\ nth_error (mc_index (new_row names name (c, k))) j
                      = Some (Z.of_nat k)).
  { intros j Hj. destruct (new_row_cells names name c k j name Hj) as [H1 H2].
    now rewrite String.eqb_refl in H1, H2. }
  destruct (map master_sc master_cat) as [|m0 ms] eqn:Em.
  - left. exists (new_row names name (c, k)).
    split; [apply in_map; exact Hin|]. split; [reflexivity|].
    split; [intro Hz; now apply float64_int_exact|].
    split; [reflexivity | exact Hnew].
  - destruct (Qlt_bool (snd (nearest separation (param_sc c) m0 ms))
                       matching_radius) eqn:E.
    + right. apply Qlt_bool_iff in E.
      destruct (nearest_spec separation (param_sc c) m0 ms)
        as (c' & Hn & Hs & _).
      apply nth_error_In in Hn. rewrite <- Em in Hn.
      apply in_map_iff in Hn as (m & <- & Hm).
      exists m. split; [assumption|]. rewrite Hs in E. exact E.
    + left. exists (new_row names name (c, k)). split.
      * apply in_map. unfold unmatched_rows. apply filter_In.
        split; [exact Hin|]. cbn [fst]. now rewrite E.
      * split; [reflexivity|].
        split; [intro Hz; now apply float64_int_exact|].
        split; [reflexivity | exact Hnew].
Qed.

(** X7. After a fold every object of the folded catalogue is accounted
    for: either a master row was appended for it, at its position, flagged
    for the catalogue with its row number, or a master row that was
    already there lies closer to it than the radius.  The appended row
    holds the partition key of the object as a float64 gives it back:
    the key itself up to [2^53], the nearest float64 above that. *)
Theorem fold_covers_catalog (names : list string) (matching_radius : Q)
  (master_cat master_cat' : list MasterRow) (cat : Catalog) (name : string)
  (k : nat) (o : CatRow) :
  fold_catalog separation names matching_radius master_cat cat name
  = inr master_cat' ->
  nth_error cat k = Some o ->
  (exists row,
      In row (skipn (List.length master_cat) master_cat')
      /\ master_sc row = sc o
      /\ ((Z.abs (healpix o) <= 2 ^ 53)%Z -> mc_healpix row = healpix o)
      /\ ((Z.abs (healpix o) < 2 ^ 62)%Z ->
          mc_healpix row = float64_int (healpix o))
      /\ forall j, nth_error names j = Some name ->
                   nth_error (mc_present row) j = Some true
                   /\ nth_error (mc_index row) j = Some (Z.of_nat k))
  \/ (exists m, In m master_cat
                /\ separation (sc o) (master_sc m) < matching_radius).
Proof. exact (fold_catalog_covers names matching_radius master_cat master_cat' cat name k o). Qed.

Lemma nearest_le (q c0 : SkyCoord) (cs : list SkyCoord) (c : SkyCoord) :
  In c (c0 :: cs) -> snd (nearest separation q c0 cs) <= separation q c.
Proof.
  intro Hin.
  destruct (nearest_spec separation q c0 cs) as (_ & _ & _ & Hmin & _).
  now apply Hmin.
Qed.

(** X8. Folding a catalogue a second time, under any name, right after it
    was folded appends no master row (positive radius, separation of a
    position to itself 0): all its objects are by then represented. *)
Theorem refold_appends_nothing (names : list string) (matching_radius : Q)
  (master_cat master1 master2 : list MasterRow) (cat : Catalog)
  (name name' : string) :
  (forall p, separation p p == 0) ->
  0 < matching_radius ->
  fold_catalog separation names matching_radius master_cat cat name
  = inr master1 ->
  fold_catalog separation names matching_radius master1 cat name'
  = inr master2 ->
  List.length master2 = List.length master1.
Proof.
  intros Hself Hrad H1 H2.
  assert (Hcover : forall k o, nth_error cat k = Some o ->
            exists m, In m master1
                      /\ separation (sc o) (master_sc m) < matching_radius).
  { intros k o Ho.
    destruct (fold_catalog_covers names matching_radius master_cat master1
                cat name k o H1 Ho) as [(row & Hin & Hsc & _)|(m & Hm & Hlt)].
    - exists row. split.
      + destruct (fold_catalog_keeps names matching_radius master_cat master1
                    cat name H1) as [_ _].
        rewrite <- (firstn_skipn (List.length master_cat) master1).
        apply in_or_app. now right.
      + rewrite Hsc, Hself. exact Hrad.
    - destruct (In_nth_error _ _ Hm) as [i Hi].
      destruct (fold_catalog_keeps names matching_radius master_cat master1
                  cat name H1) as [_ Hkeep].
      destruct (Hkeep i m Hi) as (row' & Hi' & Hra & Hdec & _).
      exists row'. split; [eapply nth_error_In; eassumption|].
      unfold master_sc. rewrite Hra, Hdec. exact Hlt. }
  destruct cat as [|c0 cs]; [discriminate H1|].
  fold_run H2. apply inr_inj in H2. subst master2.
  rewrite length_app, !length_map.
  assert (Hnone : unmatched_rows separation matching_radius
                                 (map master_sc master1)
                                 (extract_cat_params (c0 :: cs)) = []).
  { unfold unmatched_rows.
    destruct (map master_sc master1) as [|m0 ms] eqn:Em.
    - destruct (Hcover 0%nat c0 eq_refl) as (m & Hm & _).
      destruct master1; [easy | discriminate Em].
    - apply filter_none. intros [c k] Hin. cbn [fst].
      apply negb_false_iff, Qlt_bool_iff.
      apply In_combine_seq in Hin as [_ Hk]. rewrite Nat.sub_0_r in Hk.
      unfold extract_cat_params in Hk. rewrite nth_error_map in Hk.
      destruct (nth_error (c0 :: cs) k) as [o|] eqn:Eo; [|discriminate Hk].
      cbn [option_map] in Hk. injection Hk as <-.
      destruct (Hcover k o Eo) as (m & Hm & Hlt).
      eapply Qle_lt_trans; [|exact Hlt].
      apply nearest_le. rewrite <- Em. now apply in_map. }
  rewrite Hnone. cbn [List.length]. lia.
Qed.

End MasterGrowth.

(** ** The master catalogue: what the flags and indices mean *)

Section MasterMeaning.

Variable separation : SkyCoord -> SkyCoord -> Q.

Lemma fold_catalog_some_flag (names : list string) (matching_radius : Q)
  (master_cat master_cat' : list MasterRow) (cat : Catalog) (name : string) :
  In name names ->
  Forall (fun row => In true (mc_present row)) master_cat ->
  fold_catalog separation names matching_radius master_cat cat name
  = inr master_cat' ->
  Forall (fun row => In true (mc_present row)) master_cat'.
Proof.
  intros Hname Hinv Hrun. destruct cat as [|c0 cs]; [discriminate Hrun|].
  fold_run Hrun. apply inr_inj in Hrun. subst master_cat'.
  apply Forall_app. split; apply Forall_map.
  - eapply Forall_impl; [|exact Hinv]. intros row Hrow. cbv beta in *.
    destruct (In_nth_error _ _ Hrow) as [j Hj].
    eapply nth_error_In. apply mark_match_keeps_true. exact Hj.
  - apply Forall_forall. intros [c k] _. cbv beta.
    destruct (In_nth_error _ _ Hname) as [j Hj].
    destruct (new_row_cells names name c k j name Hj) as [H _].
    rewrite String.eqb_refl in H. eapply nth_error_In. exact H.
Qed.

Lemma fold_catalogs_some_flag (names : list string) (matching_radius : Q)
  (todo : list (Catalog * string)) :
  forall master_cat master_cat',
    Forall (fun cn => In (snd cn) names) todo ->
    Forall (fun row => In true (mc_present row)) master_cat ->
    fold_catalogs separation names matching_radius master_cat todo
    = inr master_cat' ->
    Forall (fun row => In true (mc_present row)) master_cat'.
Proof.
  induction todo as [|[cat name] todo IH]; intros m m' Hnames Hinv Hrun.
  - cbn in Hrun. apply inr_inj in Hrun. now subst.
  - cbn [fold_catalogs] in Hrun.
    destruct (fold_catalog separation names matching_radius m cat name)
      as [e|m1] eqn:E; [discriminate Hrun|].
    cbn [bindR] in Hrun. inversion Hnames as [|? ? Hn Hrest]; subst.
    eapply IH; [exact Hrest | | exact Hrun].
    eapply fold_catalog_some_flag; [exact Hn | exact Hinv | exact E].
Qed.

(** X9. Every row of the master catalogue that [build_master_catalog]
    returns is flagged as present in at least one catalogue. *)
Theorem master_rows_present (cats : list Catalog) (names : list string)
  (matching_radius : Q) (master_cat : list MasterRow) :
  build_master_catalog separation cats names matching_radius = inr master_cat ->
  Forall (fun row => In true (mc_present row)) master_cat.
Proof.
  unfold build_master_catalog.
  destruct (negb _); [discriminate|]. intro Hrun.
  eapply fold_catalogs_some_flag; [| constructor | exact Hrun].
  apply Forall_forall. intros [cat name] Hin. cbn [snd].
  eapply in_combine_r. exact Hin.
Qed.

Lemma row_linked_mono (names : list string)
  (folded more : list (Catalog * string)) (matching_radius : Q)
  (row : MasterRow) :
  row_linked separation names folded matching_radius row ->
  row_linked separation names (folded ++ more) matching_radius row.
Proof.
  intros H j name i Hj Hf Hi.
  destruct (H j name i Hj Hf Hi) as (cat & o & Hin & Hrest).
  exists cat, o. split; [apply in_or_app; now left | exact Hrest].
Qed.

Lemma mark_match_linked (names : list string)
  (folded : list (Catalog * string)) (matching_radius : Q)
  (c0 : CatRow) (cs : Catalog) (name : string) (row : MasterRow) :
  row_linked separation names folded matching_radius row ->
  row_linked separation names (folded ++ [(c0 :: cs, name)]) matching_radius
    (mark_match separation names name matching_radius (sc c0) (map sc cs) row).
Proof.
  intro Hinv. unfold mark_match. cbv zeta.
  destruct (Qlt_bool (snd (nearest separation (master_sc row) (sc c0)
                                   (map sc cs))) matching_radius) eqn:E;
    [|now apply row_linked_mono].
  apply Qlt_bool_iff in E.
  intros j name' i Hj Hf Hi.
  cbn [set_index set_present mc_present mc_index] in Hf, Hi.
  change (master_sc (set_index names name _ (set_present names name row)))
    with (master_sc row).
  rewrite write_column_nth, Hj in Hf. rewrite write_column_nth, Hj in Hi.
  destruct (nth_error (mc_present row) j) as [f0|] eqn:Ef; [|discriminate Hf].
  destruct (nth_error (mc_index row) j) as [i0|] eqn:Ei; [|discriminate Hi].
  destruct (String.eqb name' name) eqn:En.
  - apply String.eqb_eq in En. subst name'. injection Hi as <-.
    destruct (nearest_spec separation (master_sc row) (sc c0) (map sc cs))
      as (c & Hn & Hs & _).
    change (sc c0 :: map sc cs) with (map sc (c0 :: cs)) in Hn.
    rewrite nth_error_map in Hn.
    destruct (nth_error (c0 :: cs)
                (fst (nearest separation (master_sc row) (sc c0) (map sc cs))))
      as [o|] eqn:Eo; [|discriminate Hn].
    cbn [option_map] in Hn. injection Hn as <-.
    exists (c0 :: cs), o. split; [apply in_or_app; right; now left|].
    split; [lia|]. split; [now rewrite Nat2Z.id|].
    right. now rewrite <- Hs.
  - injection Hf as ->. injection Hi as ->.
    destruct (Hinv j name' i Hj Ef Ei) as (cat & o & Hin & Hrest).
    exists cat, o. split; [apply in_or_app; now left | exact Hrest].
Qed.

Lemma new_row_linked (names : list string)
  (folded : list (Catalog * string)) (matching_radius : Q) (cat : Catalog)
  (name : string) (k : nat) (o : CatRow) :
  nth_error cat k = Some o ->
  row_linked separation names (folded ++ [(cat, name)]) matching_radius
    (new_row names name
       ({| p_ra := ra o; p_dec := dec o; p_healpix := healpix o |}, k)).
Proof.
  intros Ho j name' i Hj Hf Hi.
  destruct (new_row_cells names name
              {| p_ra := ra o; p_dec := dec o; p_healpix := healpix o |}
              k j name' Hj) as [Hf' Hi'].
  rewrite Hf' in Hf. rewrite Hi' in Hi.
  destruct (String.eqb name' name) eqn:En; [|discriminate Hf].
  apply String.eqb_eq in En. subst name'. injection Hi as <-.
  exists cat, o. split; [apply in_or_app; right; now left|].
  split; [lia|]. split; [now rewrite Nat2Z.id|]. now left.
Qed.

Lemma fold_catalog_linked (names : list string)
  (folded : list (Catalog * string)) (matching_radius : Q)
  (master_cat master_cat' : list MasterRow) (cat : Catalog) (name : string) :
  Forall (row_linked separation names folded matching_radius) master_cat ->
  fold_catalog separation names matching_radius master_cat cat name
  = inr master_cat' ->
  Forall (row_linked separation names (folded ++ [(cat, name)]) matching_radius)
         master_cat'.
Proof.
  intros Hinv Hrun. destruct cat as [|c0 cs]; [discriminate Hrun|].
  fold_run Hrun. apply inr_inj in Hrun. subst master_cat'.
  apply Forall_app. split; apply Forall_map.
  - eapply Forall_impl; [|exact Hinv]. intro row. apply mark_match_linked.
  - apply Forall_forall. intros [c k] Hin.
    apply unmatched_rows_In in Hin.
    unfold extract_cat_params in Hin. rewrite nth_error_map in Hin.
    destruct (nth_error (c0 :: cs) k) as [o|] eqn:Eo; [|discriminate Hin].
    cbn [option_map] in Hin. injection Hin as <-.
    now apply new_row_linked.
Qed.

Lemma fold_catalogs_linked (names : list string) (matching_radius : Q)
  (todo : list (Catalog * string)) :
  forall folded master_cat master_cat',
    Forall (row_linked separation names folded matching_radius) master_cat ->
    fold_catalogs separation names matching_radius master_cat todo
    = inr master_cat' ->
    Forall (row_linked separation names (folded ++ todo) matching_radius)
           master_cat'.
Proof.
  induction todo as [|[cat name] todo IH]; intros folded m m' Hinv Hrun.
  - cbn in Hrun. apply inr_inj in Hrun. subst. now rewrite app_nil_r.
  - cbn [fold_catalogs] in Hrun.
    destruct (fold_catalog separation names matching_radius m cat name)
      as [e|m1] eqn:E; [discriminate Hrun|].
    cbn [bindR] in Hrun.
    change ((cat, name) :: todo) with ([(cat, name)] ++ todo).
    rewrite app_assoc. eapply IH; [|exact Hrun].
    eapply fold_catalog_linked; eassumption.
Qed.

(** X10. In the master catalogue that [build_master_catalog] returns, an
    index recorded under a true flag is never out of place: it is the row
    number of an object, in a catalogue folded under that name, that lies
    at the master row's position or closer to it than the radius. *)
Theorem master_rows_linked (cats : list Catalog) (names : list string)
  (matching_radius : Q) (master_cat : list MasterRow) :
  build_master_catalog separation cats names matching_radius = inr master_cat ->
  Forall (row_linked separation names (combine cats names) matching_radius)
         master_cat.
Proof.
  unfold build_master_catalog.
  destruct (negb _); [discriminate|]. intro Hrun.
  apply (fold_catalogs_linked names matching_radius _ [] [] master_cat);
    [constructor | exact Hrun].
Qed.

End MasterMeaning.

(** ** The generator: aligned streams, bounds, errors *)

Lemma prefix_spec (s t : string) :
  String.prefix s t = true <-> exists b, t = (s ++ b)%string.
Proof.
  revert t. induction s as [|c s IH]; intro t.
  - split; [intros _; now exists t | intros _; now destruct t].
  - destruct t as [|c' t]; simpl.
    + split; [discriminate | intros [b H]; discriminate H].
    + destruct (ascii_dec c c') as [->|Hne].
      * rewrite IH. split; intros [b H]; exists b; [now rewrite H|].
        now injection H.
      * split; [discriminate | intros [b H]]. injection H as H _. congruence.
Qed.

Lemma contains_unfold (s t : string) :
  contains s t
  = if String.prefix s t then true
    else match t with
         | EmptyString => false
         | String _ t' => contains s t'
         end.
Proof. now destruct t. Qed.

(** [contains] decides [is_substring]. *)
Lemma contains_spec (s t : string) :
  contains s t = true <-> is_substring s t.
Proof.
  unfold is_substring. split.
  - induction t as [|c t IH]; rewrite contains_unfold;
      destruct (String.prefix s _) eqn:E.
    + intros _. apply prefix_spec in E as [b ->]. now exists EmptyString, b.
    + discriminate.
    + intros _. apply prefix_spec in E as [b ->]. now exists EmptyString, b.
    + intro H. destruct (IH H) as (a & b & ->). now exists (String c a), b.
  - intros (a & b & ->). induction a as [|c a IH].
    + rewrite contains_unfold.
      replace (String.prefix s ("" ++ s ++ b)) with true; [reflexivity|].
      symmetry. apply prefix_spec. now exists b.
    + rewrite contains_unfold. cbn [String.append].
      destruct (String.prefix s _); [reflexivity | exact IH].
Qed.

(** The file found is the first whose name holds the tag. *)
Lemma file_of_healpix_spec (files : list string) (h : Z) :
  match file_of_healpix files h with
  | inr f =>
      exists before after,
        files = before ++ f :: after
        /\ is_substring (healpix_tag h) f
        /\ Forall (fun g => ~ is_substring (healpix_tag h) g) before
  | inl e =>
      e = IndexError
      /\ Forall (fun g => ~ is_substring (healpix_tag h) g) files
  end.
Proof.
  induction files as [|f files IH]; cbn [file_of_healpix].
  - split; [reflexivity | constructor].
  - destruct (contains (healpix_tag h) f) eqn:E.
    + exists [], files. split; [reflexivity|].
      split; [now apply contains_spec | constructor].
    + assert (Hf : ~ is_substring (healpix_tag h) f).
      { intro H. apply contains_spec in H. congruence. }
      destruct (file_of_healpix files h) as [e|f'].
      * destruct IH as [-> IH]. split; [reflexivity | now constructor].
      * destruct IH as (before & after & -> & Hs & Hb).
        exists (f :: before), after. split; [reflexivity|].
        split; [assumption | now constructor].
Qed.

(** X11. [file_of_healpix] gives the first file whose name holds the text
    [healpix=<n>] of the partition, and raises [IndexError] exactly when no
    file name holds it. *)
Theorem file_of_healpix_first (files : list string) (h : Z) :
  match file_of_healpix files h with
  | inr f =>
      exists before after,
        files = before ++ f :: after
        /\ is_substring (healpix_tag h) f
        /\ Forall (fun g => ~ is_substring (healpix_tag h) g) before
  | inl e =>
      e = IndexError
      /\ Forall (fun g => ~ is_substring (healpix_tag h) g) files
  end.
Proof. exact (file_of_healpix_spec files h). Qed.

Section GeneratorBounds.

Variable V : Type.
Variables left_name right_name : string.
Variables files_left files_right : list string.
Variables left_generate_examples right_generate_examples :
  list string -> list (list string) -> list (string * Example V).

Local Abbreviation loop := (merge_loop V left_name right_name).
Local Abbreviation merged := (merge_examples V left_name right_name).
Local Abbreviation group_examples :=
  (generate_group V left_name right_name files_left files_right
                  left_generate_examples right_generate_examples).

Lemma merge_loop_aligned_run (group : list MatchedRow)
  (good : list ((string * Example V) * (string * Example V))) :
  forall i,
    aligned_run group i good ->
    loop group i 0 good
    = (map (fun pair => Yield (merged (snd (fst pair)) (snd (snd pair)))) good,
       inr 0%nat).
Proof.
  induction good as [|[[lid el] [rid er]] good IH]; intros i Hgood;
    [reflexivity|].
  destruct (Hgood 0%nat _ eq_refl) as (row & Hrow & Hal).
  rewrite Nat.add_0_r in Hrow. cbn [fst snd] in Hal.
  rewrite (merge_loop_aligned V left_name right_name group i 0 row
             lid rid el er good Hrow Hal).
  rewrite IH.
  - reflexivity.
  - intros t pair Ht. destruct (Hgood (S t) pair Ht) as (row' & Hr' & Ha').
    exists row'. split; [|assumption].
    now replace (S i + t)%nat with (i + S t)%nat by lia.
Qed.

(** How the inner loop can end. *)
Lemma merge_loop_ends (group : list MatchedRow)
  (examples : list ((string * Example V) * (string * Example V))) :
  forall i counter,
    ((i + List.length examples <= List.length group)%nat ->
     exists counter', snd (loop group i counter examples) = inr counter')
    /\ ((i <= List.length group < i + List.length examples)%nat ->
        snd (loop group i counter examples) = inl IndexError)
    /\ snd (loop group i counter examples) <> inl AssertionError.
Proof.
  induction examples as [|[[lid el] [rid er]] examples IH]; intros i counter.
  - cbn [merge_loop List.length]. split; [intros _; now exists counter|].
    split; [lia | discriminate].
  - destruct (nth_error group i) as [row|] eqn:Erow.
    + assert (Hstep : exists c1,
                 snd (loop group i counter (((lid, el), (rid, er)) :: examples))
                 = snd (loop group (S i) c1 examples)).
      { destruct (aligned row lid rid) eqn:Eal.
        - exists 0%nat.
          now rewrite (merge_loop_aligned V left_name right_name group i
                         counter row lid rid el er examples Erow Eal).
        - exists (S counter).
          now rewrite (merge_loop_misaligned V left_name right_name group i
                         counter row lid rid el er examples Erow Eal). }
      destruct Hstep as [c1 ->]. cbn [List.length].
      destruct (IH (S i) c1) as (H1 & H2 & H3).
      apply nth_error_Some_lt in Erow.
      split; [intro; apply H1; lia|]. split; [intro; apply H2; lia | exact H3].
    + assert (Hfail : snd (loop group i counter
                                (((lid, el), (rid, er)) :: examples))
                      = inl IndexError).
      { cbn [merge_loop]. unfold getitem. now rewrite Erow. }
      rewrite Hfail. apply nth_error_None in Erow. cbn [List.length].
      split; [lia|]. split; [reflexivity | discriminate].
Qed.

(** X12. The inner loop ends normally exactly when the paired streams are
    no longer than what is left of the group; with more pairs than rows it
    ends in the [IndexError] of [group[i]].  It never ends in an
    [AssertionError]: a failed assertion is caught and counted. *)
Theorem merge_loop_bounds (group : list MatchedRow)
  (examples : list ((string * Example V) * (string * Example V))) :
  forall i counter,
    ((i + List.length examples <= List.length group)%nat ->
     exists counter', snd (loop group i counter examples) = inr counter')
    /\ ((i <= List.length group < i + List.length examples)%nat ->
        snd (loop group i counter examples) = inl IndexError)
    /\ snd (loop group i counter examples) <> inl AssertionError.
Proof. exact (merge_loop_ends group examples). Qed.

(** X13. When the two providers give, for a group, streams in step with
    the group (every pair passes the check of its ids), the group yields
    one merged record per pair, in order, prints nothing, and ends with
    the counter at 0. *)
Theorem aligned_group_yields_all (group : list MatchedRow) (row0 : MatchedRow)
  (file_left file_right : string) :
  nth_error group 0 = Some row0 ->
  file_of_healpix files_left (m_healpix row0) = inr file_left ->
  file_of_healpix files_right (m_healpix row0) = inr file_right ->
  let examples :=
    combine
      (left_generate_examples
         [file_left] [map (fun r => object_id (left_row r)) group])
      (right_generate_examples
         [file_right] [map (fun r => object_id (right_row r)) group]) in
  aligned_run group 0 examples ->
  group_examples group
  = (map (fun pair => Yield (merged (snd (fst pair)) (snd (snd pair))))
         examples,
     inr 0%nat).
Proof.
  intros Hrow Hl Hr examples Hal. unfold generate_group, getitem.
  rewrite Hrow, bindM_lift_inr, Hl, bindM_lift_inr, Hr, bindM_lift_inr.
  now apply merge_loop_aligned_run.
Qed.

(** X14. Misaligned pairs that no aligned pair follows are never
    reported: when every pair of a group fails the check of its ids, the
    group yields nothing and prints nothing, and its count is dropped
    with the group. *)
Theorem misaligned_group_is_silent (group : list MatchedRow)
  (row0 : MatchedRow) (file_left file_right : string) :
  nth_error group 0 = Some row0 ->
  file_of_healpix files_left (m_healpix row0) = inr file_left ->
  file_of_healpix files_right (m_healpix row0) = inr file_right ->
  let examples :=
    combine
      (left_generate_examples
         [file_left] [map (fun r => object_id (left_row r)) group])
      (right_generate_examples
         [file_right] [map (fun r => object_id (right_row r)) group]) in
  misaligned_run group 0 examples ->
  group_examples group = ([], inr (List.length examples))
  /\ forall groups',
       _generate_examples V left_name right_name files_left files_right
                          left_generate_examples right_generate_examples
                          (group :: groups')
       = _generate_examples V left_name right_name files_left files_right
                            left_generate_examples right_generate_examples
                            groups'.
Proof.
  intros Hrow Hl Hr examples Hbad.
  assert (Hg : group_examples group = ([], inr (List.length examples))).
  { unfold generate_group, getitem.
    rewrite Hrow, bindM_lift_inr, Hl, bindM_lift_inr, Hr, bindM_lift_inr.
    fold examples.
    pose proof (merge_loop_skips_run V left_name right_name group examples []
                                     0 0 Hbad) as H.
    rewrite app_nil_r in H. exact H. }
  split; [exact Hg|]. intro groups'. cbn [_generate_examples].
  rewrite Hg. unfold bindM. cbn [fst snd app].
  now destruct (_generate_examples V left_name right_name files_left
                  files_right left_generate_examples right_generate_examples
                  groups').
Qed.

Lemma generate_group_error (group : list MatchedRow) (e : Exception) :
  snd (group_examples group) = inl e -> e = IndexError.
Proof.
  unfold generate_group, getitem.
  destruct (nth_error group 0) as [row0|];
    [|cbn; intro H; now injection H].
  rewrite bindM_lift_inr.
  pose proof (file_of_healpix_spec files_left (m_healpix row0)) as Hl.
  destruct (file_of_healpix files_left (m_healpix row0)) as [el|fl].
  { destruct Hl as [-> _]. cbn. intro H. now injection H. }
  rewrite bindM_lift_inr.
  pose proof (file_of_healpix_spec files_right (m_healpix row0)) as Hr.
  destruct (file_of_healpix files_right (m_healpix row0)) as [er|fr].
  { destruct Hr as [-> _]. cbn. intro H. now injection H. }
  rewrite bindM_lift_inr.
  set (examples := combine _ _). intro H.
  destruct (Nat.le_gt_cases (0 + List.length examples) (List.length group))
    as [Hle|Hgt].
  - destruct (proj1 (merge_loop_ends group examples 0 0) Hle) as [c' Hc].
    congruence.
  - assert (Hb : (0 <= List.length group < 0 + List.length examples)%nat)
      by lia.
    pose proof (proj1 (proj2 (merge_loop_ends group examples 0 0)) Hb).
    congruence.
Qed.

(** X15. The generator can only fail with an [IndexError]: a group
    without rows, no file for the group's partition, or streams longer
    than the group.  Ids that do not match never make it fail. *)
Theorem generator_only_index_error (groups : list (list MatchedRow))
  (e : Exception) :
  snd (_generate_examples V left_name right_name files_left files_right
                          left_generate_examples right_generate_examples
                          groups) = inl e ->
  e = IndexError.
Proof.
  induction groups as [|group groups IH]; cbn [_generate_examples].
  - discriminate.
  - unfold bindM.
    destruct (snd (group_examples group)) as [e'|c] eqn:E; cbn [snd].
    + intro H. injection H as <-. now apply generate_group_error with group.
    + exact IH.
Qed.

End GeneratorBounds.

(** ** The merged record *)

Lemma mem_In (k : string) (keys : list string) :
  mem k keys = true <-> In k keys.
Proof.
  unfold mem. rewrite existsb_exists. split.
  - intros (x & Hx & He). apply String.eqb_eq in He. now subst.
  - intro H. exists k. split; [assumption | apply String.eqb_refl].
Qed.

Lemma fold_left_flat_map {A B C : Type} (f : A -> C -> A) (g : B -> list C)
  (l : list B) :
  forall a,
    fold_left f (flat_map g l) a
    = fold_left (fun a x => fold_left f (g x) a) l a.
Proof.
  induction l as [|x l IH]; intro a; [reflexivity|].
  cbn [flat_map fold_left]. now rewrite fold_left_app, IH.
Qed.

Lemma fold_left_ext {A B : Type} (f g : A -> B -> A) (l : list B) :
  (forall a x, f a x = g a x) ->
  forall a, fold_left f l a = fold_left g l a.
Proof.
  intro H. induction l as [|x l IH]; intro a; [reflexivity|].
  cbn [fold_left]. now rewrite H, IH.
Qed.

Section DictFacts.

Variable V : Type.

Local Abbreviation get := (dict_get V).
Local Abbreviation set := (dict_set V).

Lemma dict_get_In (d : list (string * V)) (k : string) :
  get d k <> None <-> In k (map fst d).
Proof.
  unfold dict_get. rewrite <- mem_In, lookup_mem.
  destruct (lookup d k) as [e|v]; split; try congruence.
  - intros [v H]. discriminate H.
  - intros _. now exists v.
Qed.

Lemma dict_get_In_items (d : list (string * V)) (k : string) (v : V) :
  NoDup (map fst d) -> In (k, v) d -> get d k = Some v.
Proof.
  unfold dict_get. induction d as [|[k' v'] d IH]; intros Hnd Hin; [easy|].
  cbn [lookup]. inversion Hnd as [|? ? Hnot Hnd']; subst.
  destruct Hin as [Heq|Hin].
  - injection Heq as -> ->. now rewrite String.eqb_refl.
  - destruct (String.eqb k' k) eqn:E; [|now apply IH].
    apply String.eqb_eq in E. subst k'. elim Hnot.
    apply in_map_iff. now exists (k, v).
Qed.

Lemma dict_set_keys (d : list (string * V)) (k : string) (v : V) (k' : string) :
  In k' (map fst (set d k v)) <-> k' = k \/ In k' (map fst d).
Proof.
  induction d as [|[k0 v0] d IH]; cbn [dict_set map fst In].
  - intuition.
  - destruct (String.eqb k0 k) eqn:E; cbn [map fst In].
    + apply String.eqb_eq in E. subst k0. intuition.
    + rewrite IH. intuition.
Qed.

Lemma dict_set_NoDup (d : list (string * V)) (k : string) (v : V) :
  NoDup (map fst d) -> NoDup (map fst (set d k v)).
Proof.
  induction d as [|[k0 v0] d IH]; intro Hnd; cbn [dict_set map fst].
  - constructor; [easy | constructor].
  - inversion Hnd as [|? ? Hnot Hnd']; subst.
    destruct (String.eqb k0 k) eqn:E; cbn [map fst].
    + apply String.eqb_eq in E. subst k0. now constructor.
    + constructor; [|now apply IH].
      rewrite dict_set_keys. intros [->|Hin]; [|contradiction].
      now rewrite String.eqb_refl in E.
Qed.

Lemma dict_set_fresh (d : list (string * V)) (k : string) (v : V) :
  ~ In k (map fst d) -> set d k v = d ++ [(k, v)].
Proof.
  induction d as [|[k0 v0] d IH]; intro Hnot; [reflexivity|].
  cbn [dict_set app]. cbn [map fst In] in Hnot.
  destruct (String.eqb k0 k) eqn:E.
  - apply String.eqb_eq in E. tauto.
  - rewrite IH; [reflexivity | tauto].
Qed.

Lemma set_items_keys (items : list (string * V)) :
  forall d k,
    In k (map fst (set_items d items))
    <-> In k (map fst d) \/ In k (map fst items).
Proof.
  unfold set_items.
  induction items as [|[k0 v0] items IH]; intros d k; cbn [fold_left map fst In].
  - tauto.
  - rewrite IH, dict_set_keys. cbn [fst snd]. intuition.
Qed.

Lemma set_items_NoDup (items : list (string * V)) :
  forall d, NoDup (map fst d) -> NoDup (map fst (set_items d items)).
Proof.
  unfold set_items.
  induction items as [|[k0 v0] items IH]; intros d Hnd; [assumption|].
  cbn [fold_left]. apply IH. now apply dict_set_NoDup.
Qed.

Lemma set_items_fresh (items : list (string * V)) :
  forall d,
    NoDup (map fst (d ++ items)) -> set_items d items = d ++ items.
Proof.
  unfold set_items.
  induction items as [|[k0 v0] items IH]; intros d Hnd; cbn [fold_left].
  - now rewrite app_nil_r.
  - cbn [fst snd]. rewrite dict_set_fresh.
    + rewrite IH; rewrite <- app_assoc; [reflexivity | exact Hnd].
    + rewrite map_app in Hnd. cbn [map fst] in Hnd.
      apply NoDup_remove_2 in Hnd. intro Hin. apply Hnd.
      apply in_or_app. now left.
Qed.

Variables left_name right_name : string.

Lemma merge_examples_items (example_left example_right : Example V) :
  merge_examples V left_name right_name example_left example_right
  = set_items [] (merged_items V left_name right_name
                               example_left example_right).
Proof.
  unfold merge_examples, set_items, merged_items.
  rewrite fold_left_flat_map. apply fold_left_ext. intros a key.
  destruct (get example_left key), (get example_right key); reflexivity.
Qed.

Lemma merged_items_keys (left_dict right_dict : list (string * V))
  (k : string) :
  In k (map fst (merged_items V left_name right_name left_dict right_dict))
  <-> (exists key,
          In key (map fst left_dict) /\ In key (map fst right_dict)
          /\ (k = (left_name ++ "_" ++ key)%string \/ k = (right_name ++ "_" ++ key)%string))
      \/ (In k (map fst left_dict) /\ ~ In k (map fst right_dict))
      \/ (~ In k (map fst left_dict) /\ In k (map fst right_dict)).
Proof.
  unfold merged_items. rewrite in_map_iff. split.
  - intros ([k' v] & Hk & Hin). cbn [fst] in Hk. subst k'.
    apply in_flat_map in Hin as (key & _ & Hin).
    destruct (get left_dict key) as [vl|] eqn:El;
      destruct (get right_dict key) as [vr|] eqn:Er; cbn [In] in Hin.
    + left. exists key.
      split; [apply dict_get_In; congruence|].
      split; [apply dict_get_In; congruence|].
      destruct Hin as [H|[H|[]]]; injection H as <- _; auto.
    + right. left. destruct Hin as [H|[]]. injection H as <- _.
      split; [apply dict_get_In; congruence|].
      intro Hr. apply dict_get_In in Hr. congruence.
    + right. right. destruct Hin as [H|[]]. injection H as <- _.
      split; [|apply dict_get_In; congruence].
      intro Hl. apply dict_get_In in Hl. congruence.
    + destruct Hin.
  - assert (Hall : forall key,
               In key (map fst left_dict) \/ In key (map fst right_dict) ->
               In key (all_keys V left_dict right_dict)).
    { intros key H. unfold all_keys. apply nodup_In, in_or_app. exact H. }
    intros [(key & Hl & Hr & Hk)|[[Hl Hr]|[Hl Hr]]].
    + pose proof (proj2 (dict_get_In left_dict key) Hl) as Gl.
      pose proof (proj2 (dict_get_In right_dict key) Hr) as Gr.
      destruct (get left_dict key) as [vl|] eqn:El; [|congruence].
      destruct (get right_dict key) as [vr|] eqn:Er; [|congruence].
      destruct Hk as [->| ->].
      * exists ((left_name ++ "_" ++ key)%string, vl). split; [reflexivity|].
        apply in_flat_map. exists key. split; [apply Hall; now left|].
        rewrite El, Er. now left.
      * exists ((right_name ++ "_" ++ key)%string, vr). split; [reflexivity|].
        apply in_flat_map. exists key. split; [apply Hall; now left|].
        rewrite El, Er. right. now left.
    + pose proof (proj2 (dict_get_In left_dict k) Hl) as Gl.
      destruct (get left_dict k) as [vl|] eqn:El; [|congruence].
      destruct (get right_dict k) as [vr|] eqn:Er.
      { elim Hr. apply dict_get_In. congruence. }
      exists (k, vl). split; [reflexivity|].
      apply in_flat_map. exists k. split; [apply Hall; now left|].
      rewrite El, Er. now left.
    + pose proof (proj2 (dict_get_In right_dict k) Hr) as Gr.
      destruct (get right_dict k) as [vr|] eqn:Er; [|congruence].
      destruct (get left_dict k) as [vl|] eqn:El.
      { elim Hl. apply dict_get_In. congruence. }
      exists (k, vr). split; [reflexivity|].
      apply in_flat_map. exists k. split; [apply Hall; now right|].
      rewrite El, Er. now left.
Qed.

Lemma merged_keys (example_left example_right : Example V) (k : string) :
  In k (map fst (merge_examples V left_name right_name
                                example_left example_right))
  <-> In k (map fst (merged_items V left_name right_name
                                  example_left example_right)).
Proof.
  rewrite merge_examples_items, set_items_keys. cbn [map In]. tauto.
Qed.

(** X16. The merged record is a well-formed record, no key twice, and its
    keys are exactly: for every key of both examples the two names
    [leftname_key] and [rightname_key], and every key that only one of
    the two examples has, under its own name. *)
Theorem merged_record_keys (example_left example_right : Example V) :
  let merged_example :=
    merge_examples V left_name right_name example_left example_right in
  NoDup (map fst merged_example)
  /\ forall k,
       In k (map fst merged_example)
       <-> (exists key,
               In key (map fst example_left)
               /\ In key (map fst example_right)
               /\ (k = (left_name ++ "_" ++ key)%string
                   \/ k = (right_name ++ "_" ++ key)%string))
           \/ (In k (map fst example_left) /\ ~ In k (map fst example_right))
           \/ (~ In k (map fst example_left) /\ In k (map fst example_right)).
Proof.
  cbv zeta. split.
  - rewrite merge_examples_items. apply set_items_NoDup. constructor.
  - intro k. rewrite merged_keys. apply merged_items_keys.
Qed.

(** X17. When the names under which the fields are written are pairwise
    distinct, nothing is overwritten: the merged record holds every field
    of both examples with its value, a shared key twice under the two
    prefixed names. *)
Theorem merged_record_values (example_left example_right : Example V) :
  NoDup (map fst (merged_items V left_name right_name
                               example_left example_right)) ->
  let merged_example :=
    merge_examples V left_name right_name example_left example_right in
  merged_example
  = merged_items V left_name right_name example_left example_right
  /\ (forall key vl vr,
         get example_left key = Some vl ->
         get example_right key = Some vr ->
         get merged_example (left_name ++ "_" ++ key) = Some vl
         /\ get merged_example (right_name ++ "_" ++ key) = Some vr)
  /\ (forall key vl,
         get example_left key = Some vl ->
         get example_right key = None ->
         get merged_example key = Some vl)
  /\ (forall key vr,
         get example_left key = None ->
         get example_right key = Some vr ->
         get merged_example key = Some vr).
Proof.
  intro Hnd. cbv zeta.
  assert (Heq : merge_examples V left_name right_name example_left example_right
                = merged_items V left_name right_name
                               example_left example_right).
  { rewrite merge_examples_items. now apply (set_items_fresh _ []). }
  rewrite Heq.
  assert (Hall : forall key,
             get example_left key <> None \/ get example_right key <> None ->
             In key (all_keys V example_left example_right)).
  { intros key H. unfold all_keys. apply nodup_In, in_or_app.
    destruct H as [H|H]; [left | right]; now apply dict_get_In. }
  split; [reflexivity|]. split; [|split].
  - intros key vl vr Hl Hr.
    split; apply dict_get_In_items; try assumption; unfold merged_items;
      apply in_flat_map; exists key;
      (split; [apply Hall; left; congruence|]); rewrite Hl, Hr;
      [now left | right; now left].
  - intros key vl Hl Hr. apply dict_get_In_items; [assumption|].
    unfold merged_items. apply in_flat_map. exists key.
    split; [apply Hall; left; congruence|]. rewrite Hl, Hr. now left.
  - intros key vr Hl Hr. apply dict_get_In_items; [assumption|].
    unfold merged_items. apply in_flat_map. exists key.
    split; [apply Hall; right; congruence|]. rewrite Hl, Hr. now left.
Qed.

End DictFacts.

(** X18. The records the generator yields fit the features declared for
    the new dataset: when each example has the keys of its builder's
    features, the merged record has exactly the keys of the merged
    features. *)
Theorem merged_record_fits_features (V F : Type) (left_name right_name : string)
  (example_left example_right : Example V)
  (left_features right_features : list (string * F)) :
  (forall k, In k (map fst example_left) <-> In k (map fst left_features)) ->
  (forall k, In k (map fst example_right) <-> In k (map fst right_features)) ->
  forall k,
    In k (map fst (merge_examples V left_name right_name
                                  example_left example_right))
    <-> In k (map fst (merge_features F left_name right_name
                                      left_features right_features)).
Proof.
  intros Hl Hr k.
  change (merge_features F left_name right_name left_features right_features)
    with (merge_examples F left_name right_name left_features right_features).
  rewrite !merged_keys, !merged_items_keys.
  setoid_rewrite Hl. setoid_rewrite Hr. reflexivity.
Qed.

(** ** The groups of the table and the size of the master catalogue *)

Lemma insert_by_healpix_sorted (r : MatchedRow) (rows : list MatchedRow) :
  StronglySorted (fun a b => (m_healpix a <= m_healpix b)%Z) rows ->
  StronglySorted (fun a b => (m_healpix a <= m_healpix b)%Z)
                 (insert_by_healpix r rows).
Proof.
  induction rows as [|r' rows IH]; intro Hs; cbn [insert_by_healpix].
  - constructor; constructor.
  - inversion Hs as [|? ? Hs' Hall]; subst.
    destruct (m_healpix r <=? m_healpix r')%Z eqn:E.
    + apply Z.leb_le in E. constructor; [assumption|].
      constructor; [assumption|].
      eapply Forall_impl; [|exact Hall]. intros a Ha. cbv beta in *. lia.
    + apply Z.leb_gt in E. constructor; [now apply IH|].
      apply (Permutation_Forall
               (Permutation_sym (insert_by_healpix_perm r rows))).
      constructor; [lia | assumption].
Qed.

Lemma group_by_healpix_sorted (rows : list MatchedRow) :
  StronglySorted (fun a b => (m_healpix a <= m_healpix b)%Z)
                 (group_by_healpix rows).
Proof.
  induction rows as [|r rows IH]; cbn [group_by_healpix fold_right].
  - constructor.
  - now apply insert_by_healpix_sorted.
Qed.

Lemma groups_of_sorted (rows : list MatchedRow) :
  StronglySorted (fun a b => (m_healpix a <= m_healpix b)%Z) rows ->
  List.concat (groups rows) = rows
  /\ Forall one_partition (groups rows)
  /\ StronglySorted group_before (groups rows).
Proof.
  induction rows as [|r rows IH]; intro Hs.
  - cbn. repeat split; constructor.
  - inversion Hs as [|? ? Hs' Hall]; subst.
    destruct (IH Hs') as (Hcat & Hone & Hord). cbn [groups].
    destruct (groups rows) as [|[|r' g] gs] eqn:Eg.
    + cbn in Hcat. subst rows. cbn. split; [reflexivity|]. split.
      * constructor; [|constructor]. exists r. split; [reflexivity|].
        now constructor.
      * constructor; constructor.
    + destruct (Forall_inv Hone) as (r0 & H0 & _). discriminate H0.
    + destruct (Forall_inv Hone) as (r0 & H0 & Hsame).
      pose proof (Forall_inv_tail Hone) as Hone'.
      cbn in H0. injection H0 as <-.
      destruct (StronglySorted_inv Hord) as [Hord' Hbefore].
      assert (Hr' : In r' rows).
      { rewrite <- Hcat. cbn. now left. }
      pose proof (proj1 (Forall_forall _ _) Hall r' Hr') as Hle. cbv beta in Hle.
      destruct (m_healpix r =? m_healpix r')%Z eqn:E.
      * apply Z.eqb_eq in E. split; [cbn in *; now rewrite Hcat|]. split.
        -- constructor; [|assumption]. exists r. split; [reflexivity|].
           constructor; [reflexivity|].
           eapply Forall_impl; [|exact Hsame]. intros a Ha. cbv beta in *.
           congruence.
        -- constructor; [assumption|].
           eapply Forall_impl; [|exact Hbefore].
           intros g2 Hg2 a b Ha Hb. destruct Ha as [<-|Ha].
           ++ rewrite E. apply (Hg2 r' b); [now left | assumption].
           ++ now apply (Hg2 a b).
      * apply Z.eqb_neq in E. split; [cbn in *; now rewrite Hcat|]. split.
        -- constructor; [|assumption]. exists r. split; [reflexivity|].
           now constructor.
        -- constructor; [assumption|]. constructor.
           ++ intros a b [<-|[]] Hb.
              pose proof (proj1 (Forall_forall _ _) Hsame b Hb) as Hb'.
              cbv beta in Hb'. lia.
           ++ eapply Forall_impl; [|exact Hbefore].
              intros g2 Hg2 a b [<-|[]] Hb.
              pose proof (Hg2 r' b (or_introl eq_refl) Hb). lia.
Qed.

(** X19. The groups over which the generator runs cut the cross-match
    table into its partitions: put end to end they are the table, every
    group has a first row and rows of that one partition, and the
    partition keys grow from group to group, so that no partition is
    visited twice. *)
Theorem cross_match_groups (separation : SkyCoord -> SkyCoord -> Q)
  (R : Type) (cat_left cat_right : Catalog) (matching_radius : Q)
  (events : list (Event R)) (table : list MatchedRow) :
  @cross_match_datasets separation R cat_left cat_right matching_radius
  = (events, inr table) ->
  List.concat (groups table) = table
  /\ Forall one_partition (groups table)
  /\ StronglySorted group_before (groups table).
Proof.
  intro Hrun. destruct cat_right as [|r0 rs]; [discriminate Hrun|].
  rewrite cross_match_datasets_run in Hrun.
  apply (f_equal snd) in Hrun. cbn [snd] in Hrun. apply inr_inj in Hrun.
  subst table. apply groups_of_sorted, group_by_healpix_sorted.
Qed.

Lemma fold_catalogs_size (separation : SkyCoord -> SkyCoord -> Q)
  (names : list string) (matching_radius : Q) (todo : list (Catalog * string)) :
  forall master_cat master_cat',
    fold_catalogs separation names matching_radius master_cat todo
    = inr master_cat' ->
    (List.length master_cat <= List.length master_cat'
     <= List.length master_cat
        + list_sum (map (fun cn => List.length (fst cn)) todo))%nat.
Proof.
  induction todo as [|[cat name] todo IH]; intros m m' Hrun.
  - cbn in Hrun. apply inr_inj in Hrun. subst. cbn. lia.
  - cbn [fold_catalogs] in Hrun.
    destruct (fold_catalog separation names matching_radius m cat name)
      as [e|m1] eqn:E; [discriminate Hrun|].
    cbn [bindR] in Hrun.
    destruct (fold_catalog_keeps separation names matching_radius m m1
                                 cat name E) as [Hb _].
    specialize (IH m1 m' Hrun). unfold list_sum in *.
    cbn [map fold_right fst]. lia.
Qed.

(** X20. The master catalogue that [build_master_catalog] returns has at
    least as many rows as the first catalogue and at most as many as all
    the catalogues together. *)
Theorem master_catalog_size (separation : SkyCoord -> SkyCoord -> Q)
  (cats : list Catalog) (names : list string) (matching_radius : Q)
  (master_cat : list MasterRow) :
  build_master_catalog separation cats names matching_radius = inr master_cat ->
  (List.length (hd [] cats) <= List.length master_cat
   <= list_sum (map (@List.length CatRow) cats))%nat.
Proof.
  unfold build_master_catalog.
  destruct (Nat.eqb _ _) eqn:El; [|discriminate]. cbn [negb].
  apply Nat.eqb_eq in El. intro Hrun.
  assert (Hsum : list_sum (map (fun cn : list CatRow * string =>
                                  List.length (fst cn)) (combine cats names))
                 = list_sum (map (@List.length CatRow) cats)).
  { rewrite <- (map_map fst (@List.length CatRow)).
    now rewrite map_fst_combine_le. }
  pose proof (fold_catalogs_size separation names matching_radius _ _ _ Hrun)
    as Hall.
  rewrite Hsum in Hall. cbn [List.length] in Hall. split; [|lia].
  destruct cats as [|[|c0 cs] cats]; [cbn; lia | cbn; lia |].
  destruct names as [|name names]; [discriminate El|].
  cbn [combine fold_catalogs] in Hrun.
  destruct (fold_catalog separation (name :: names) matching_radius []
                         (c0 :: cs) name) as [e|master1] eqn:E;
    [discriminate Hrun|].
  rewrite fold_catalog_first in E
    by exact (proj2 (fold_catalog_returns _ _ _ _ _ _ _ E)).
  apply inr_inj in E. subst master1. cbn [bindR] in Hrun.
  apply fold_catalogs_size in Hrun. destruct Hrun as [Hlow _].
  rewrite length_map, length_combine, length_seq in Hlow.
  unfold extract_cat_params in Hlow. rewrite length_map, Nat.min_id in Hlow.
  exact Hlow.
Qed.

(** ** The further properties on sample data *)

Lemma get_catalog_skips_unreadable_witness :
  get_catalog (list Z) (list (string * list Z)) sample_h5 sample_Table
              sample_vstack sample_builder ["object_id"; "ra"] "train" 1
  = get_catalog (list Z) (list (string * list Z)) sample_h5 sample_Table
                sample_vstack sample_builder_readable ["object_id"; "ra"]
                "train" 1.
Proof.
  apply (get_catalog_skips_unreadable (list Z) (list (string * list Z))
           sample_Table sample_vstack sample_h5 sample_builder
           sample_builder_readable ["object_id"; "ra"] "train" 1
           ["healpix=1/a.hdf5"; "healpix=2/a.hdf5"; "healpix=3/a.hdf5"]);
    [lia | reflexivity | reflexivity].
Defined.


Lemma source_id_stands_for_object_id_witness :
  _file_to_catalog (list Z) (list (string * list Z)) sample_h5 sample_Table
                   "healpix=3/a.hdf5" ["object_id"; "ra"]
  = _file_to_catalog (list Z) (list (string * list Z)) sample_h5_renamed
                     sample_Table "healpix=3/a.hdf5" ["object_id"; "ra"].
Proof.
  apply (source_id_stands_for_object_id (list Z) (list (string * list Z))
           sample_Table sample_h5 sample_h5_renamed "healpix=3/a.hdf5"
           ["object_id"; "ra"] [("source_id", [3]%Z); ("ra", [30]%Z)] [3]%Z);
    reflexivity.
Defined.

Lemma no_pair_within_radius_witness :
  @cross_match_datasets flat_separation unit catA catFar 1
  = ([InitialMatches 0; LostAtBorders 0; FinalSize 0], inr []).
Proof.
  apply (no_pair_within_radius flat_separation unit catA (obj "z0" 100 9)
           [obj "z1" 120 9] 1).
  intros l r Hl Hr.
  destruct Hl as [<-|[<-|[<-|[]]]]; destruct Hr as [<-|[<-|[]]];
    vm_compute; discriminate.
Defined.

Lemma cross_match_counts_witness :
  exists initial lost,
    [@InitialMatches unit 1; LostAtBorders 0; FinalSize 1]
    = [InitialMatches initial; LostAtBorders lost;
       FinalSize (List.length [default_columns (obj "a1" 20 2, obj "b1" 20 2)])]
    /\ (0 <= lost)%Z
    /\ Z.of_nat initial
       = (lost + Z.of_nat (List.length
                             [default_columns (obj "a1" 20 2, obj "b1" 20 2)]))%Z
    /\ (initial <= List.length catA)%nat
    /\ exists selected : CatRow -> bool,
         Permutation
           (map left_row [default_columns (obj "a1" 20 2, obj "b1" 20 2)])
           (filter selected catA).
Proof.
  apply (cross_match_counts flat_separation unit catA catB 1).
  reflexivity.
Defined.


Lemma fold_covers_catalog_witness :
  exists m, In m masterA
            /\ flat_separation (sc (obj "b1" 20 2)) (master_sc m) < 1.
Proof.
  destruct (fold_covers_catalog flat_separation ["A"; "B"] 1 masterA
              (map (mark_match flat_separation ["A"; "B"] "B" 1
                               (sc (obj "b0" 40 4))
                               (map sc [obj "b1" 20 2; obj "b2" 20 2])) masterA
               ++ map (new_row ["A"; "B"] "B")
                      (unmatched_rows flat_separation 1 (map master_sc masterA)
                                      (extract_cat_params catB)))
              catB "B" 1 (obj "b1" 20 2)
              (fold_catalog_run flat_separation ["A"; "B"] 1 masterA
                                (obj "b0" 40 4)
                                [obj "b1" 20 2; obj "b2" 20 2] "B" eq_refl)
              eq_refl) as [(row & Hin & Hsc & _)|H].
  - exfalso. rewrite skipn_map_app in Hin. vm_compute in Hin.
    destruct Hin as [<-|[]]. vm_compute in Hsc. discriminate Hsc.
  - exact H.
Defined.

Lemma refold_appends_nothing_witness :
  exists master2,
    fold_catalog flat_separation ["A"; "B"] 1 masterA catA "B" = inr master2
    /\ List.length master2 = List.length masterA.
Proof.
  eexists. split; [reflexivity|].
  apply (refold_appends_nothing flat_separation ["A"; "B"] 1 [] masterA _
           catA "A" "B" flat_separation_self); reflexivity.
Defined.

Lemma master_rows_present_witness :
  exists master_cat,
    build_master_catalog flat_separation [catA; catB] ["A"; "B"] 1
    = inr master_cat
    /\ Forall (fun row => In true (mc_present row)) master_cat.
Proof.
  eexists. split; [reflexivity|].
  apply (master_rows_present flat_separation [catA; catB] ["A"; "B"] 1).
  reflexivity.
Defined.

Lemma master_rows_linked_witness :
  exists master_cat,
    build_master_catalog flat_separation [catA; catB] ["A"; "B"] 1
    = inr master_cat
    /\ Forall (row_linked flat_separation ["A"; "B"]
                          [(catA, "A"); (catB, "B")] 1) master_cat.
Proof.
  eexists. split; [reflexivity|].
  apply (master_rows_linked flat_separation [catA; catB] ["A"; "B"] 1).
  reflexivity.
Defined.

Lemma aligned_group_yields_all_witness :
  generate_group Z "L" "R" sample_files_left sample_files_right
                 sample_left_provider sample_right_provider sample_group
  = ([Yield (merge_examples Z "L" "R" [("flux", 1%Z)] [("flux", 2%Z)]);
      Yield (merge_examples Z "L" "R" [("flux", 3%Z)] [("mag", 4%Z)])],
     inr 0%nat).
Proof.
  apply (aligned_group_yields_all Z "L" "R" sample_files_left
           sample_files_right sample_left_provider sample_right_provider
           sample_group (default_columns (obj "a1" 20 2, obj "b1" 20 2))
           "left/healpix=2/a.hdf5" "right/healpix=2/b.hdf5");
    try reflexivity.
  intros [|[|t]] pair Ht; try (destruct t; discriminate Ht);
    injection Ht as <-; eexists; split; reflexivity.
Defined.

Lemma misaligned_group_is_silent_witness :
  generate_group Z "L" "R" sample_files_left sample_files_right
                 sample_left_drifted sample_right_provider sample_group
  = ([], inr 2%nat).
Proof.
  apply (misaligned_group_is_silent Z "L" "R" sample_files_left
           sample_files_right sample_left_drifted sample_right_provider
           sample_group (default_columns (obj "a1" 20 2, obj "b1" 20 2))
           "left/healpix=2/a.hdf5" "right/healpix=2/b.hdf5");
    try reflexivity.
  intros [|[|t]] pair Ht; try (destruct t; discriminate Ht);
    injection Ht as <-; eexists; split; reflexivity.
Defined.

Lemma generator_only_index_error_witness :
  snd (_generate_examples Z "L" "R" [] sample_files_right
                          sample_left_provider sample_right_provider
                          [sample_group])
  = inl IndexError.
Proof.
  destruct (snd (_generate_examples Z "L" "R" [] sample_files_right
                                    sample_left_provider sample_right_provider
                                    [sample_group])) as [e|u] eqn:E.
  - f_equal.
    exact (generator_only_index_error Z "L" "R" [] sample_files_right
             sample_left_provider sample_right_provider [sample_group] e E).
  - discriminate E.
Defined.

Lemma merged_record_values_witness :
  merge_examples Z "L" "R" sample_example_left sample_example_right
  = [("flux", 3%Z); ("mag", 4%Z); ("L_id", 1%Z); ("R_id", 2%Z)].
Proof.
  refine (proj1 (merged_record_values Z "L" "R" sample_example_left
                                      sample_example_right _)).
  repeat constructor; cbn; intuition discriminate.
Defined.

Lemma merged_record_fits_features_witness :
  In "L_id" (map fst (merge_examples Z "L" "R" sample_example_left
                                     sample_example_right))
  <-> In "L_id" (map fst (merge_features string "L" "R" sample_features_left
                                         sample_features_right)).
Proof.
  apply (merged_record_fits_features Z string "L" "R" sample_example_left
           sample_example_right sample_features_left sample_features_right).
  - intro k. cbn. tauto.
  - intro k. cbn. tauto.
Defined.

Lemma cross_match_groups_witness :
  List.concat (groups [default_columns (obj "a1" 20 2, obj "b1" 20 2)])
  = [default_columns (obj "a1" 20 2, obj "b1" 20 2)]
  /\ Forall one_partition
            (groups [default_columns (obj "a1" 20 2, obj "b1" 20 2)])
  /\ StronglySorted group_before
                    (groups [default_columns (obj "a1" 20 2, obj "b1" 20 2)]).
Proof.
  apply (cross_match_groups flat_separation unit catA catB 1
           [InitialMatches 1; LostAtBorders 0; FinalSize 1]).
  reflexivity.
Defined.

Lemma master_catalog_size_witness :
  exists master_cat,
    build_master_catalog flat_separation [catA; catB] ["A"; "B"] 1
    = inr master_cat
    /\ (List.length (hd [] [catA; catB]) <= List.length master_cat
        <= list_sum (map (@List.length CatRow) [catA; catB]))%nat.
Proof.
  eexists. split; [reflexivity|].
  apply (master_catalog_size flat_separation [catA; catB] ["A"; "B"] 1).
  reflexivity.
Defined.
